(** * NASimEnv: the transition engine of the network attack simulator

    A shallow embedding of [nasim/env/environment.py] (class [NASimEnv]).
    The collaborating classes [Network], [State], [Action] and the scenario
    live in modules whose source is not part of this development; they
    enter as interfaces (type classes) whose operations are the methods
    the environment calls.  A small concrete network built from the
    specification's description instantiates the interfaces for the
    examples.

    Conventions.
    - Python numbers (rewards, costs, probabilities) are rationals [Q];
      rounding of floating-point subtraction is outside the model.
    - Python objects that are shared with the caller ([State]) live in a
      store [heap]; the environment holds a reference into it.
    - [np.random.rand()] reads a global generator: it is the stream
      [rand], whose head is the next draw.
    - Query methods of the collaborators are functions of the collaborator's
      value; mutators return the new value. *)

From Stdlib Require Import QArith ZArith Ascii Lqa.
From stdpp Require Import base gmap sets list strings pretty.

Set Default Proof Using "Type".

(** ** Basic data *)

(** An address is the pair (subnet id, host id); [addr[0]] is [fst]. *)
Definition Addr : Type := nat * nat.

(** The mapping service id -> presence reported in [info["services"]]. *)
Abbreviation Services := (gmap nat bool).

(** Operating system value reported by the network ([None] when unknown). *)
Definition OS : Type := option string.

Module Action.
(** Modelled from the spec: class [Action] (nasim/env/action.py is absent).
    "Action: target address, base cost, success probability, optional
    service identifier, a scan/exploit discriminator."  The environment
    reads [target], [cost], [prob], [service] and calls [is_scan()]. *)
Record t : Type := mk {
  target : Addr;
  cost : Q;
  prob : Q;
  service : option nat;
  is_scan : bool
}.
End Action.

(** Python exceptions the environment can raise. *)
Inductive Exception : Type :=
| AssertionError (msg : string)
| IndexError
| NotImplementedError.

Inductive Result (A : Type) : Type :=
| Return (a : A)
| Raise (e : Exception).
Arguments Return {A} a.
Arguments Raise {A} e.

(** [l[i]] on a Python sequence: a negative index counts from the end, an
    index outside [-len, len) raises [IndexError]. *)
Definition getitem {A : Type} (l : list A) (i : Z) : Result A :=
  let n := Z.of_nat (length l) in
  let j := if (i <? 0)%Z then (i + n)%Z else i in
  if ((0 <=? j)%Z && (j <? n)%Z)%bool then
    match l !! Z.to_nat j with
    | Some a => Return a
    | None => Raise IndexError
    end
  else Raise IndexError.

(** [x > y] on numbers. *)
Definition Qgtb (x y : Q) : bool := negb (Qle_bool x y).

(** ** Interfaces of the collaborators *)

Module Scenario.
(** What the environment needs of a scenario: [scenario.address_space],
    [Action.load_action_space(scenario)] (an ordered sequence), and the
    constant [INTERNET] exported by [nasim.scenarios]. *)
Class API (Scn : Type) : Type := {
  address_space : Scn -> list Addr;
  load_action_space : Scn -> list Action.t;
  INTERNET : nat
}.
End Scenario.

Module Network.
(** The methods of class [Network] called by the environment
    (nasim/env/network.py is absent).  [new] is the constructor
    [Network(scenario)].  Modelled from the spec: [reachable],
    [subnets_connected], [traffic_permitted], [compromised] and the three
    getters are queries without side effects (sections 4.1 and 6), hence
    functions of the network; [reset], [set_reachable] and [perform_action]
    mutate the network and return it. *)
Class API (Scn Net : Type) : Type := {
  new : Scn -> Net;
  reset : Net -> Net;
  reachable : Net -> Addr -> bool;
  set_reachable : Net -> Addr -> Net;
  subnets_connected : Net -> nat -> nat -> bool;
  traffic_permitted : Net -> nat -> nat -> option nat -> bool;
  perform_action : Net -> Action.t -> (bool * Q * Services * OS) * Net;
  compromised : Net -> Addr -> bool;
  get_sensitive_hosts : Net -> list Addr;
  get_total_sensitive_host_value : Net -> Q;
  get_minimal_steps : Net -> Z
}.

(** Modelled from the spec: what section 4.1 says of the two operations
    the reachability propagation relies on.  "setReachable(addr): marks
    addr reachable" (and nothing else changes its reachability);
    "subnetsConnected(a, b): pure topology query, independent of
    firewall/compromise state". *)
Class Laws (Scn Net : Type) `{!API Scn Net} : Prop := {
  reachable_set_reachable : ∀ (n : Net) (x y : Addr),
    reachable (set_reachable n x) y
    = (bool_decide (x = y) || reachable n y)%bool;
  subnets_connected_set_reachable : ∀ (n : Net) (x : Addr) (i j : nat),
    subnets_connected (set_reachable n x) i j = subnets_connected n i j
}.
End Network.

Module State.
(** The methods of class [State] called by the environment
    (nasim/env/state.py is absent).  A State object may read the network
    it was generated from, so [update] receives the network as it is at
    the time of the call. *)
Class API (Net St : Type) : Type := {
  generate_initial_mdp_state : Net -> St;
  update : Net -> Addr -> St -> St
}.
End State.

Module Describe.
(** The two values the environment formats into strings: [str_subnets]
    is ["{}".format(network.subnets)] and [str_num_services] is
    ["{}".format(scenario.num_services)]. *)
Class API (Scn Net : Type) : Type := {
  str_subnets : Net -> string;
  str_num_services : Scn -> string
}.
End Describe.

(** ** The environment *)

Module NASimEnv.
Section Env.
Context {Scn Net St : Type}.
Context `{!Scenario.API Scn, !Network.API Scn Net, !State.API Net St}.

(** Class attribute [env_modes]. *)
Definition env_modes : list string := ["MDP"%string].

(** The fields of a [NASimEnv] object.  [current_state] is a reference to
    the State object in the store.  [renderer] is used by the rendering
    methods only and is left out.  [compromised_subnets] is [None] only
    between its assignment in [__init__] and the call of [reset] that ends
    [__init__]; nothing reads it there, and the empty set stands for it. *)
Record t : Type := mk {
  scenario : Scn;
  mode : string;
  network : Net;
  address_space : list Addr;
  action_space : list Action.t;
  current_state : nat;
  compromised_subnets : gset nat
}.

(** The mutable world a method runs in: the receiver [self], the store of
    State objects, and the random stream. *)
Record Sim : Type := mkSim {
  self : t;
  heap : list St;
  rand : nat -> Q
}.

(** Methods are state transformers that may raise. *)
Definition M (A : Type) : Type := Sim -> Result (A * Sim).

#[export] Instance M_ret : MRet M := fun A a s => Return (a, s).
#[export] Instance M_bind : MBind M := fun A B f m s =>
  match m s with
  | Return (a, s') => f a s'
  | Raise e => Raise e
  end.

Definition raise {A : Type} (e : Exception) : M A := fun _ => Raise e.
Definition get_self : M t := fun s => Return (self s, s).
(** Assignments to the fields [network] and [compromised_subnets]. *)
Definition with_network (n : Net) (e : t) : t :=
  mk (scenario e) (mode e) n (address_space e) (action_space e)
     (current_state e) (compromised_subnets e).
Definition with_compromised_subnets (c : gset nat) (e : t) : t :=
  mk (scenario e) (mode e) (network e) (address_space e) (action_space e)
     (current_state e) c.
Definition set_network (n : Net) : M unit := fun s =>
  Return (tt, mkSim (with_network n (self s)) (heap s) (rand s)).
Definition set_compromised_subnets (c : gset nat) : M unit := fun s =>
  Return (tt, mkSim (with_compromised_subnets c (self s)) (heap s) (rand s)).
(** In-place mutation of the object behind a reference (a reference held
    by a Python object always points into the store). *)
Definition mutate_state (r : nat) (f : St -> St) : M unit := fun s =>
  Return (tt, mkSim (self s) (alter f r (heap s)) (rand s)).
(** [np.random.rand()]: take the head of the stream. *)
Definition random_rand : M Q := fun s =>
  Return (rand s 0%nat, mkSim (self s) (heap s) (fun n => rand s (S n))).

(** [self.network.perform_action(action)]: the network object is mutated
    in place and the call returns what the attacker learns. *)
Definition network_perform_action (action : Action.t)
  : M (bool * Q * Services * OS) :=
  env ← get_self;
  let '(out, net') := Network.perform_action (network env) action in
  set_network net';;
  mret out.

(** *** [reset] *)
Definition reset : M nat :=
  set_compromised_subnets {[ Scenario.INTERNET ]};;
  env ← get_self;
  set_network (Network.reset (network env));;
  env ← get_self;
  mret (current_state env).

(** *** [_generate_initial_state]; reads [self.mode] and [self.network]. *)
Definition _generate_initial_state (mode : string) (network : Net)
  : Result St :=
  if String.eqb mode "MDP" then
    Return (State.generate_initial_mdp_state network)
  else if String.eqb mode "POMDP" then
    Raise NotImplementedError
  else Raise NotImplementedError.

(** *** [__init__]; the new State object is allocated at the end of the
    store the constructor is run in. *)
Definition __init__ (scenario : Scn) (mode : string)
           (heap0 : list St) (rand0 : nat -> Q) : Result Sim :=
  if negb (bool_decide (mode ∈ env_modes)) then
    Raise (AssertionError "NASimEnv mode must be one in: ['MDP']")
  else
    let network := Network.new scenario in
    let address_space := Scenario.address_space scenario in
    let action_space := Scenario.load_action_space scenario in
    match _generate_initial_state mode network with
    | Raise e => Raise e
    | Return st =>
        let env := mk scenario mode network address_space action_space
                      (length heap0) ∅ in
        match reset (mkSim env (heap0 ++ [st]) rand0) with
        | Return (_, s) => Return s
        | Raise e => Raise e
        end
    end.

(** *** [_action_traffic_permitted] *)
Fixpoint traffic_loop (net : Net) (dest : nat) (service : option nat)
         (srcs : list nat) : bool :=
  match srcs with
  | [] => false
  | src :: rest =>
      if Network.traffic_permitted net src dest service then true
      else traffic_loop net dest service rest
  end.

Definition _action_traffic_permitted (action : Action.t) : M bool :=
  env ← get_self;
  if negb (Network.reachable (network env) (Action.target action)) then
    mret false
  else if Action.is_scan action then mret true
  else
    let service := Action.service action in
    let dest := fst (Action.target action) in
    mret (traffic_loop (network env) dest service
                       (elements (compromised_subnets env))).

(** *** [_update_reachable] *)
Fixpoint update_reachable_loop (comp_subnet : nat) (addrs : list Addr)
         (net : Net) : Net :=
  match addrs with
  | [] => net
  | addr :: rest =>
      if Network.reachable net addr then
        update_reachable_loop comp_subnet rest net
      else
        let host_subnet := fst addr in
        if Network.subnets_connected net comp_subnet host_subnet then
          update_reachable_loop comp_subnet rest
                                (Network.set_reachable net addr)
        else update_reachable_loop comp_subnet rest net
  end.

Definition _update_reachable (compromised_host : Addr) : M unit :=
  env ← get_self;
  let comp_subnet := fst compromised_host in
  set_network (update_reachable_loop comp_subnet (address_space env)
                                     (network env)).

(** *** [_update_state] *)
Definition _update_state (action : Action.t) (success : bool) : M unit :=
  let target := Action.target action in
  if (negb (Action.is_scan action) && success)%bool then
    env ← get_self;
    set_compromised_subnets ({[ fst target ]} ∪ compromised_subnets env);;
    _update_reachable (Action.target action);;
    env ← get_self;
    mutate_state (current_state env)
                 (State.update (network env) (Action.target action))
  else mret tt.

(** *** [_is_goal] *)
Fixpoint goal_loop (net : Net) (sensitive : list Addr) : bool :=
  match sensitive with
  | [] => true
  | sensitive_m :: rest =>
      if negb (Network.compromised net sensitive_m) then false
      else goal_loop net rest
  end.

Definition _is_goal : M bool :=
  env ← get_self;
  mret (goal_loop (network env)
                  (Network.get_sensitive_hosts (network env))).

(** *** [step] *)

(** The dict returned as [info]; the key ["os"] is present only on the
    path that reaches the network. *)
Record Info : Type := mkInfo {
  info_success : bool;
  info_services : Services;
  info_os : option OS
}.

(** The tuple (obs, reward, done, info); [obs] is a reference. *)
Record StepResult : Type := mkStepResult {
  obs : nat;
  reward : Q;
  done : bool;
  info : Info
}.

(** What a caller can pass as [action]. *)
Inductive StepArg : Type :=
| ArgAction (a : Action.t)
| ArgInt (i : Z)
| ArgOther.

(** The assertion and the coercion at the head of [step]. *)
Definition coerce_action (action : StepArg) : M Action.t :=
  match action with
  | ArgOther =>
      raise (AssertionError
               "Step action must be an integer or an Action object")
  | ArgAction a => mret a
  | ArgInt i =>
      env ← get_self;
      match getitem (action_space env) i with
      | Return a => mret a
      | Raise e => raise e
      end
  end.

Definition step_action (action : Action.t) : M StepResult :=
  let info := mkInfo false ∅ None in
  env ← get_self;
  if negb (Network.reachable (network env) (Action.target action)) then
    mret (mkStepResult (current_state env) (0 - Action.cost action) false
                       info)
  else
    permitted ← _action_traffic_permitted action;
    if negb permitted then
      mret (mkStepResult (current_state env) (0 - Action.cost action) false
                         info)
    else
      u ← random_rand;
      if Qgtb u (Action.prob action) then
        mret (mkStepResult (current_state env) (0 - Action.cost action)
                           false info)
      else
        '(success, value, services, os) ← network_perform_action action;
        _update_state action success;;
        done ← _is_goal;
        let reward := (value - Action.cost action)%Q in
        env ← get_self;
        mret (mkStepResult (current_state env) reward done
                           (mkInfo success services (Some os))).

Definition step (action : StepArg) : M StepResult :=
  action ← coerce_action action;
  step_action action.

(** *** [get_minimum_actions], [get_best_possible_score] *)
Definition get_minimum_actions : M Z :=
  env ← get_self;
  mret (Network.get_minimal_steps (network env)).

Definition get_best_possible_score : M Q :=
  env ← get_self;
  let max_reward := Network.get_total_sensitive_host_value (network env) in
  let max_reward :=
    (max_reward - inject_Z (Network.get_minimal_steps (network env)))%Q in
  mret max_reward.

(** *** Notions used in the statements *)

(** The firewall gate fails: the action is not a scan and no compromised
    subnet may send the action's service to the target's subnet. *)
Definition traffic_blocked (env : t) (action : Action.t) : Prop :=
  Action.is_scan action = false ∧
  ∀ src, src ∈ compromised_subnets env →
    Network.traffic_permitted (network env) src
      (fst (Action.target action)) (Action.service action) = false.

(** The step is rejected before the random draw. *)
Definition rejected_early (s : Sim) (action : Action.t) : Prop :=
  Network.reachable (network (self s)) (Action.target action) = false ∨
  traffic_blocked (self s) action.

(** The step is rejected: by a gate, or by the next random draw. *)
Definition rejected (s : Sim) (action : Action.t) : Prop :=
  rejected_early s action ∨ (Action.prob action < rand s 0%nat)%Q.

(** What a rejected step returns. *)
Definition rejected_result (env : t) (action : Action.t) : StepResult :=
  mkStepResult (current_state env) (0 - Action.cost action) false
               (mkInfo false ∅ None).

(** The world after one draw was taken from the random stream. *)
Definition after_draw (s : Sim) : Sim :=
  mkSim (self s) (heap s) (fun n => rand s (S n)).

(** The goal predicate: every sensitive host of the network is
    compromised. *)
Definition goal (net : Net) : Prop :=
  ∀ m, m ∈ Network.get_sensitive_hosts net →
    Network.compromised net m = true.

(** The worlds an environment goes through when it is driven from [s0] by
    calls of [reset] and [step] that return.  (A call of [step] that
    raises does so before it has changed anything.) *)
Inductive reaches (s0 : Sim) : Sim -> Prop :=
| reaches_here : reaches s0 s0
| reaches_reset s r s' :
    reaches s0 s -> reset s = Return (r, s') -> reaches s0 s'
| reaches_step s arg r s' :
    reaches s0 s -> step arg s = Return (r, s') -> reaches s0 s'.

(** The environment has been reset, and driven since. *)
Definition running (s : Sim) : Prop :=
  ∃ s0 r s1, reset s0 = Return (r, s1) ∧ reaches s1 s.

(** *** The other methods of the class *)

(** [get_num_actions] *)
Definition get_num_actions : M nat :=
  env ← get_self;
  mret (length (action_space env)).

(** A caller that submits the same argument to [step] [n] times and
    collects what comes back. *)
Fixpoint repeat_step (n : nat) (action : StepArg) : M (list StepResult) :=
  match n with
  | O => mret []
  | S n' =>
      r ← step action;
      rs ← repeat_step n' action;
      mret (r :: rs)
  end.

(** The world with the compromised-subnet set replaced. *)
Definition with_subnets (c : gset nat) (s : Sim) : Sim :=
  mkSim (with_compromised_subnets c (self s)) (heap s) (rand s).

(** *** [render], [render_episode], [render_network_graph].
    The [Viewer] (nasim/env/render.py, absent) draws on the screen; what
    the environment does with it is the sequence of calls it makes, kept
    in a log.  The field [renderer] is [None] or the one Viewer object;
    the Viewer holds the network object, which the environment never
    replaces. *)

(** Class attribute [rendering_modes]. *)
Definition rendering_modes : list string := ["readable"; "ASCI"]%string.

Inductive ViewerCall : Type :=
| ViewerNew
| RenderAsci (state : nat)
| RenderReadable (state : nat)
| RenderEpisode (episode : list (nat * Action.t * Q * bool))
| RenderGraph (state : nat) (ax : option nat) (show : bool)
| PrintLine (msg : string).

Record Display : Type := mkDisplay {
  renderer : bool;
  calls : list ViewerCall
}.

(** [if self.renderer is None: self.renderer = Viewer(self.network)] *)
Definition ensure_renderer (d : Display) : Display :=
  if renderer d then d else mkDisplay true (calls d ++ [ViewerNew]).

Definition call_viewer (c : ViewerCall) (d : Display) : Display :=
  mkDisplay (renderer d) (calls d ++ [c]).

Definition render (mode : string) (env : t) (d : Display) : Display :=
  let d := ensure_renderer d in
  if String.eqb mode "ASCI" then
    call_viewer (RenderAsci (current_state env)) d
  else if String.eqb mode "readable" then
    call_viewer (RenderReadable (current_state env)) d
  else
    call_viewer
      (PrintLine "Please choose correct render mode: ['readable', 'ASCI']") d.

(** [width] and [height] are accepted and not used. *)
Definition render_episode (episode : list (nat * Action.t * Q * bool))
           (width height : Z) (env : t) (d : Display) : Display :=
  let d := ensure_renderer d in
  call_viewer (RenderEpisode episode) d.

Definition render_network_graph (ax : option nat) (show : bool) (env : t)
           (d : Display) : Display :=
  let d := ensure_renderer d in
  let state := current_state env in
  call_viewer (RenderGraph state ax show) d.

(** The log of an environment that has made all its Viewer calls through
    these methods: nothing yet, or one Viewer created first and never
    again. *)
Definition display_ok (d : Display) : Prop :=
  (renderer d = false ∧ calls d = [])
  ∨ (renderer d = true
     ∧ ∃ rest, calls d = ViewerNew :: rest ∧ ViewerNew ∉ rest).

(** *** [__str__], [outfile_name] *)
Section Describing.
Context `{!Describe.API Scn Net}.

Definition __str__ (env : t) : string :=
  let output := "Environment: "%string in
  let output :=
    output +:+ ("Subnets = " +:+ Describe.str_subnets (network env) +:+ ", ") in
  let output :=
    output
    +:+ ("Services = " +:+ Describe.str_num_services (scenario env) +:+ ", ")
  in
  output.

Definition outfile_name (env : t) : string :=
  let output := Describe.str_subnets (network env) +:+ "_" in
  let output :=
    output +:+ (Describe.str_num_services (scenario env) +:+ "_") in
  output.
End Describing.

(** No character of the string is an underscore. *)
Fixpoint has_underscore (x : string) : bool :=
  match x with
  | EmptyString => false
  | String c rest =>
      if Ascii.eqb c "_"%char then true else has_underscore rest
  end.

(** The fields no method assigns after construction. *)
Definition same_configuration (env1 env2 : t) : Prop :=
  scenario env1 = scenario env2 ∧ mode env1 = mode env2
  ∧ address_space env1 = address_space env2
  ∧ action_space env1 = action_space env2
  ∧ current_state env1 = current_state env2.

End Env.
End NASimEnv.

(** ** A concrete network *)

Module SimpleNet.
(** Modelled from the spec: class [Host] (of the modules under nasim/env
    only environment.py is present).  "Host: operating system, set of
    running services, a sensitive flag, a non-negative value (reward
    gained when first compromised), and an address." *)
Record Host : Type := mkHost {
  address : Addr;
  os : OS;
  services : Services;
  sensitive : bool;
  value : Q
}.

(** Modelled from the spec: the finished Scenario object (nasim.scenarios
    is absent): hosts, subnet adjacency, firewall rule table (the listed
    triples (source, destination, service) are permitted), the ordered
    action space, and the minimal number of steps, which the scenario
    graph determines and which is kept here as a number. *)
Record Scn : Type := mkScn {
  scn_hosts : list Host;
  scn_topology : list (nat * nat);
  scn_firewall : list (nat * nat * nat);
  scn_actions : list Action.t;
  scn_minimal_steps : Z
}.

(** Modelled from the spec: class [Network] (nasim/env/network.py is
    absent), "aggregate root: host collection, subnet adjacency, firewall
    rule table, a reachable-set, and a compromised-set". *)
Record Net : Type := mkNet {
  hosts : list Host;
  topology : list (nat * nat);
  firewall : list (nat * nat * nat);
  minimal_steps : Z;
  reachable_set : gset Addr;
  compromised_set : gset Addr
}.

(** Modelled from the spec: the constant [INTERNET] of nasim.scenarios,
    "distinguished pseudo-address representing the attacker's external
    entry point"; subnet 0 here. *)
Definition INTERNET : nat := 0.

Definition find_host (net : Net) (a : Addr) : option Host :=
  List.find (fun h => bool_decide (address h = a)) (hosts net).

(** Modelled from the spec: "subnetsConnected(a, b): pure topology
    query, independent of firewall/compromise state". *)
Definition net_subnets_connected (net : Net) (a b : nat) : bool :=
  bool_decide ((a, b) ∈ topology net).

(** Modelled from the spec: "trafficPermitted(srcSubnet, dstSubnet,
    service): firewall lookup". *)
Definition net_traffic_permitted (net : Net) (src dst : nat)
           (service : option nat) : bool :=
  match service with
  | Some sv => bool_decide ((src, dst, sv) ∈ firewall net)
  | None => false
  end.

(** Modelled from the spec: "reachable(addr): true if addr is in the
    reachable set (or is INTERNET)". *)
Definition net_reachable (net : Net) (a : Addr) : bool :=
  (Nat.eqb (fst a) INTERNET || bool_decide (a ∈ reachable_set net))%bool.

(** Modelled from the spec: "setReachable(addr): marks addr reachable". *)
Definition net_set_reachable (net : Net) (a : Addr) : Net :=
  mkNet (hosts net) (topology net) (firewall net) (minimal_steps net)
        ({[ a ]} ∪ reachable_set net) (compromised_set net).

Definition net_compromised (net : Net) (a : Addr) : bool :=
  bool_decide (a ∈ compromised_set net).

(** Modelled from the spec: "performAction(action)": a scan always
    reveals the services and the operating system of its target and
    changes nothing; an exploit succeeds when the target runs the
    action's service, compromises the host, pays the host's value when
    the host is first compromised, and reveals only on success. *)
Definition net_perform_action (net : Net) (action : Action.t)
  : (bool * Q * Services * OS) * Net :=
  let target := Action.target action in
  match find_host net target with
  | None => ((false, 0%Q, ∅, None), net)
  | Some h =>
      if Action.is_scan action then
        ((true, 0%Q, services h, os h), net)
      else
        match Action.service action with
        | Some sv =>
            if bool_decide (services h !! sv = Some true) then
              let v := if net_compromised net target then 0%Q
                       else value h in
              ((true, v, services h, os h),
               mkNet (hosts net) (topology net) (firewall net)
                     (minimal_steps net) (reachable_set net)
                     ({[ target ]} ∪ compromised_set net))
            else ((false, 0%Q, ∅, None), net)
        | None => ((false, 0%Q, ∅, None), net)
        end
  end.

Definition net_get_sensitive_hosts (net : Net) : list Addr :=
  List.map address (List.filter sensitive (hosts net)).

Definition net_get_total_sensitive_host_value (net : Net) : Q :=
  List.fold_right (fun h acc => (value h + acc)%Q) 0%Q
                  (List.filter sensitive (hosts net)).

(** Modelled from the spec: "reset(): restores all hosts to
    uncompromised/unobserved, clears the reachable set back to the
    initial frontier" (the hosts of the subnets adjacent to INTERNET). *)
Definition net_reset (net : Net) : Net :=
  mkNet (hosts net) (topology net) (firewall net) (minimal_steps net)
        (list_to_set
           (List.filter
              (fun a => net_subnets_connected net INTERNET (fst a))
              (List.map address (hosts net))))
        ∅.

(** Modelled from the spec: the constructor [Network(scenario)]; the
    network starts in the configuration [reset] restores. *)
Definition net_new (scn : Scn) : Net :=
  net_reset (mkNet (scn_hosts scn) (scn_topology scn) (scn_firewall scn)
                   (scn_minimal_steps scn) ∅ ∅).

(** Modelled from the spec: class [State] (nasim/env/state.py is absent):
    "one row per host: compromised flag, reachable flag, per-service
    observed value, derived from Network at construction and
    incrementally patched on update". *)
Record Row : Type := mkRow {
  row_compromised : bool;
  row_reachable : bool;
  row_services : Services
}.

Definition St : Type := list (Addr * Row).

(** Modelled from the spec: the initial State "encodes no service
    information gained"; the two flags are read off the network. *)
Definition st_generate_initial_mdp_state (net : Net) : St :=
  List.map (fun h => (address h,
                      mkRow (net_compromised net (address h))
                            (net_reachable net (address h)) ∅))
           (hosts net).

(** Modelled from the spec: "patch State for that address": the row of
    the target is rewritten from the host as the network holds it. *)
Definition st_update (net : Net) (target : Addr) (st : St) : St :=
  List.map (fun '(a, r) =>
    if bool_decide (a = target) then
      match find_host net target with
      | Some h => (a, mkRow (net_compromised net a) (net_reachable net a)
                            (services h))
      | None => (a, r)
      end
    else (a, r)) st.

(** The row a State holds for an address. *)
Definition st_row (st : St) (a : Addr) : option Row :=
  snd <$> List.find (fun '(b, _) => bool_decide (b = a)) st.

#[global] Instance scenario_api : Scenario.API Scn := {|
  Scenario.address_space := fun scn => List.map address (scn_hosts scn);
  Scenario.load_action_space := scn_actions;
  Scenario.INTERNET := INTERNET
|}.

#[global] Instance network_api : Network.API Scn Net := {|
  Network.new := net_new;
  Network.reset := net_reset;
  Network.reachable := net_reachable;
  Network.set_reachable := net_set_reachable;
  Network.subnets_connected := net_subnets_connected;
  Network.traffic_permitted := net_traffic_permitted;
  Network.perform_action := net_perform_action;
  Network.compromised := net_compromised;
  Network.get_sensitive_hosts := net_get_sensitive_hosts;
  Network.get_total_sensitive_host_value :=
    net_get_total_sensitive_host_value;
  Network.get_minimal_steps := minimal_steps
|}.

#[global] Instance state_api : State.API Net St := {|
  State.generate_initial_mdp_state := st_generate_initial_mdp_state;
  State.update := st_update
|}.

(** *** An example scenario: a chain INTERNET - 1 - 2 - 3.
    Host (1,0) is a public server, (2,0) and (3,0) are sensitive. *)
Definition host (a : Addr) (sens : bool) (v : Q) : Host :=
  mkHost a (Some "linux"%string) {[ 0%nat := true ]} sens v.

Definition scan (a : Addr) : Action.t := Action.mk a 0 1 None true.
Definition exploit (a : Addr) (p : Q) : Action.t :=
  Action.mk a 1 p (Some 0%nat) false.

Definition chain : Scn := mkScn
  [host (1, 0) false 0; host (2, 0) true 10; host (3, 0) true 10]%nat
  [(0, 1); (1, 0); (1, 1); (1, 2); (2, 1); (2, 2); (2, 3); (3, 2); (3, 3)]%nat
  [(0, 1, 0); (1, 2, 0); (2, 3, 0)]%nat
  [scan (1, 0)%nat; exploit (1, 0)%nat 1;
   scan (2, 0)%nat; exploit (2, 0)%nat 1;
   scan (3, 0)%nat; exploit (3, 0)%nat (1 # 4);
   exploit (1, 0)%nat (1 # 4)]
  3.

(** A scenario without sensitive hosts. *)
Definition plain : Scn := mkScn
  [host (1, 0)%nat false 0]
  [(0, 1); (1, 0); (1, 1)]%nat
  [(0, 1, 0)]%nat
  [scan (1, 0)%nat; exploit (1, 0)%nat 1]
  0.

(** A random stream whose every draw is 1/2. *)
Definition half : nat -> Q := fun _ => (1 # 2)%Q.

(** The environment the constructor builds for [chain] in an empty store,
    and the world it leaves. *)
Definition chain_env : @NASimEnv.t Scn Net :=
  NASimEnv.mk chain "MDP" (net_new chain) (List.map address (scn_hosts chain))
              (scn_actions chain) 0 {[ INTERNET ]}.
Definition chain_sim : @NASimEnv.Sim Scn Net St :=
  NASimEnv.mkSim chain_env [st_generate_initial_mdp_state (net_new chain)]
                 half.

(** The same for [plain]. *)
Definition plain_env : @NASimEnv.t Scn Net :=
  NASimEnv.mk plain "MDP" (net_new plain) (List.map address (scn_hosts plain))
              (scn_actions plain) 0 {[ INTERNET ]}.
Definition plain_sim : @NASimEnv.Sim Scn Net St :=
  NASimEnv.mkSim plain_env [st_generate_initial_mdp_state (net_new plain)]
                 half.
(** A second world for the chain: the caller has put a copy of the initial
    State in the store, at reference 1. *)
Definition chain_sim_copy : @NASimEnv.Sim Scn Net St :=
  NASimEnv.mkSim chain_env
    [st_generate_initial_mdp_state (net_new chain);
     st_generate_initial_mdp_state (net_new chain)]
    half.

(** Modelled from the spec: [network.subnets] is the list of subnet sizes
    and [scenario.num_services] the number of services (section 6: the
    file name is "<subnet-size-list>_<num-services>_"); [str] of a list of
    integers is the bracketed, comma-separated list of their decimals.
    Subnets are numbered from 1 up to the largest subnet id of a host. *)
Definition subnet_sizes (net : Net) : list nat :=
  let ids := List.map (fun h => fst (address h)) (hosts net) in
  List.map (fun i => length (List.filter (Nat.eqb i) ids))
           (seq 1 (List.fold_right Nat.max 0%nat ids)).

Fixpoint join (sep : string) (xs : list string) : string :=
  match xs with
  | [] => ""
  | [x] => x
  | x :: rest => x +:+ sep +:+ join sep rest
  end.

Definition str_list (xs : list nat) : string :=
  "[" +:+ join ", " (List.map pretty xs) +:+ "]".

Definition num_services (scn : Scn) : nat :=
  size (⋃ (List.map (fun h => dom (services h)) (scn_hosts scn)) : gset nat).

(** Another scenario of the same shape as [chain] (three subnets of one
    host, one service) with other values, sensitive flags and rules. *)
Definition chain_alt : Scn := mkScn
  [host (1, 0) true 5; host (2, 0) false 0; host (3, 0) false 1]%nat
  [(0, 1); (1, 0); (1, 1); (1, 3); (3, 1)]%nat
  [(0, 1, 0)]%nat
  [scan (1, 0)%nat; exploit (1, 0)%nat 1]
  1.
Definition chain_alt_env : @NASimEnv.t Scn Net :=
  NASimEnv.mk chain_alt "MDP" (net_new chain_alt)
              (List.map address (scn_hosts chain_alt))
              (scn_actions chain_alt) 0 {[ INTERNET ]}.

#[global] Instance describe_api : Describe.API Scn Net := {|
  Describe.str_subnets := fun net => str_list (subnet_sizes net);
  Describe.str_num_services := fun scn => pretty (num_services scn)
|}.
End SimpleNet.

(** * Properties of the environment *)

Section Theory.
Context {Scn Net St : Type}.
Context `{!Scenario.API Scn, !Network.API Scn Net, !State.API Net St}.
Import NASimEnv.
Implicit Types (s : @Sim Scn Net St) (a : Action.t) (env : @t Scn Net).

(** Unfolds the monadic plumbing of a method body. *)
Ltac run_method :=
  cbv [mbind mret M_bind M_ret get_self set_network set_compromised_subnets
       mutate_state random_rand raise].

(** ** The building blocks *)

Lemma Qgtb_true (u p : Q) : Qgtb u p = true ↔ (p < u)%Q.
Proof.
  unfold Qgtb. rewrite negb_true_iff, <- not_true_iff_false, Qle_bool_iff.
  split; [apply Qnot_le_lt | apply Qlt_not_le].
Qed.

Lemma Qgtb_false (u p : Q) : Qgtb u p = false ↔ (u <= p)%Q.
Proof.
  unfold Qgtb. rewrite negb_false_iff. apply Qle_bool_iff.
Qed.

Lemma traffic_loop_false (net : Net) dest service (srcs : list nat) :
  traffic_loop net dest service srcs = false ↔
  ∀ src, src ∈ srcs → Network.traffic_permitted net src dest service = false.
Proof.
  induction srcs as [|x srcs IH]; simpl.
  - split; [intros _ src Hin; inversion Hin | done].
  - destruct (Network.traffic_permitted net x dest service) eqn:Hx.
    + split; [done | intros Hall].
      rewrite <- Hx. apply Hall. left.
    + rewrite IH. split.
      * intros Hall src [-> | Hin]%elem_of_cons; auto.
      * intros Hall src Hin. apply Hall. by right.
Qed.

(** The firewall gate, as the method computes it on a reachable target. *)
Lemma action_traffic_permitted_spec a s :
  ∃ b, _action_traffic_permitted a s = Return (b, s) ∧
       (b = false ↔ rejected_early s a).
Proof.
  unfold _action_traffic_permitted, rejected_early, traffic_blocked.
  run_method.
  destruct (Network.reachable _ _) eqn:Hr; simpl.
  2: { eexists; split; [reflexivity | split; auto]. }
  destruct (Action.is_scan a) eqn:Hs.
  { eexists; split; [reflexivity |].
    split; [done | intros [? | [? _]]; done]. }
  eexists; split; [reflexivity |].
  rewrite traffic_loop_false. split.
  - intros Hall. right. split; [done |].
    intros src Hin. apply Hall. by apply elem_of_elements.
  - intros [? | [_ Hall]]; [done |].
    intros src Hin. apply Hall. by apply elem_of_elements.
Qed.

Lemma coerce_action_pure arg s a s' :
  coerce_action arg s = Return (a, s') → s' = s.
Proof.
  destruct arg as [b | i |]; unfold coerce_action; run_method.
  - by intros [= _ ->].
  - destruct (getitem _ _); [by intros [= _ ->] | done].
  - done.
Qed.

Lemma step_coerced arg s a :
  coerce_action arg s = Return (a, s) → step arg s = step_action a s.
Proof.
  intros Hc. unfold step. unfold mbind at 1, M_bind. by rewrite Hc.
Qed.

Lemma goal_loop_true (net : Net) (l : list Addr) :
  goal_loop net l = true ↔ ∀ m, m ∈ l → Network.compromised net m = true.
Proof.
  induction l as [|x l IH]; simpl.
  - split; [intros _ m Hin; inversion Hin | done].
  - destruct (Network.compromised net x) eqn:Hx; simpl.
    + rewrite IH. split.
      * intros Hall m [-> | Hin]%elem_of_cons; auto.
      * intros Hall m Hin. apply Hall. by right.
    + split; [done | intros Hall].
      rewrite <- Hx. apply Hall. left.
Qed.

(** A step that fails a gate returns before the random draw. *)
Lemma step_action_rejected_early a s :
  rejected_early s a →
  step_action a s = Return (rejected_result (self s) a, s).
Proof.
  intros Hrej. unfold step_action.
  unfold mbind at 1, M_bind at 1, get_self at 1.
  destruct (Network.reachable _ _) eqn:Hr; simpl; [| reflexivity].
  destruct (action_traffic_permitted_spec a s) as (b & Hb & Hiff).
  unfold mbind at 1, M_bind at 1. rewrite Hb.
  apply Hiff in Hrej. by subst b.
Qed.

(** A step that passes the gates and fails the draw has consumed it. *)
Lemma step_action_rejected_draw a s :
  ¬ rejected_early s a → (Action.prob a < rand s 0%nat)%Q →
  step_action a s = Return (rejected_result (self s) a, after_draw s).
Proof.
  intros Hgates Hdraw. unfold step_action.
  unfold mbind at 1, M_bind at 1, get_self at 1.
  destruct (Network.reachable _ _) eqn:Hr; simpl.
  2: { destruct Hgates. by left. }
  destruct (action_traffic_permitted_spec a s) as (b & Hb & Hiff).
  unfold mbind at 1, M_bind at 1. rewrite Hb.
  destruct b; simpl.
  2: { destruct Hgates. by apply Hiff. }
  unfold mbind at 1, M_bind at 1, random_rand at 1.
  apply Qgtb_true in Hdraw. by rewrite Hdraw.
Qed.


(** A step that passes the gates and the draw: the network performs the
    action, and the bookkeeping is patched for a successful exploit only. *)
Lemma step_action_accepted a s success value services os net1 :
  ¬ rejected s a →
  Network.perform_action (network (self s)) a
    = (success, value, services, os, net1) →
  let exploited := (negb (Action.is_scan a) && success)%bool in
  let target := Action.target a in
  let net2 :=
    if exploited
    then update_reachable_loop (fst target) (address_space (self s)) net1
    else net1 in
  let subnets2 :=
    if exploited then {[ fst target ]} ∪ compromised_subnets (self s)
    else compromised_subnets (self s) in
  let heap2 :=
    if exploited
    then alter (State.update net2 target) (current_state (self s)) (heap s)
    else heap s in
  step_action a s =
  Return (mkStepResult (current_state (self s)) (value - Action.cost a)
            (goal_loop net2 (Network.get_sensitive_hosts net2))
            (mkInfo success services (Some os)),
          mkSim (with_network net2
                   (with_compromised_subnets subnets2 (self s)))
                heap2 (fun n => rand s (S n))).
Proof.
  intros Hacc Hperf. unfold step_action.
  unfold mbind at 1, M_bind at 1, get_self at 1.
  destruct (Network.reachable _ _) eqn:Hr; simpl.
  2: { destruct Hacc. left. by left. }
  destruct (action_traffic_permitted_spec a s) as (b & Hb & Hiff).
  unfold mbind at 1, M_bind at 1. rewrite Hb.
  destruct b; simpl.
  2: { destruct Hacc. left. by apply Hiff. }
  unfold mbind at 1, M_bind at 1, random_rand at 1.
  destruct (Qgtb _ _) eqn:Hdraw.
  { destruct Hacc. right. by apply Qgtb_true. }
  unfold network_perform_action, _update_state, _update_reachable, _is_goal.
  run_method. simpl. rewrite Hperf. simpl.
  destruct (Action.is_scan a), success; reflexivity.
Qed.

Lemma rejected_dec a s : rejected s a ∨ ¬ rejected s a.
Proof.
  destruct (action_traffic_permitted_spec a s) as (b & _ & Hiff).
  destruct b.
  - destruct (Qlt_le_dec (Action.prob a) (rand s 0%nat)) as [Hlt | Hle].
    + left. by right.
    + right. intros [Hearly | Hlt].
      * apply Hiff in Hearly. done.
      * by apply Qlt_not_le in Hlt.
  - left. left. by apply Hiff.
Qed.

Lemma step_inv arg s r s' :
  step arg s = Return (r, s') →
  ∃ a, coerce_action arg s = Return (a, s) ∧ step_action a s = Return (r, s').
Proof.
  unfold step. unfold mbind at 1, M_bind.
  destruct (coerce_action arg s) as [[a s1] |] eqn:Hc; [| done].
  pose proof (coerce_action_pure _ _ _ _ Hc) as ->.
  intros Hstep. by exists a.
Qed.

Lemma reset_spec s :
  NASimEnv.reset s =
  Return (current_state (self s),
          mkSim (with_network (Network.reset (network (self s)))
                   (with_compromised_subnets {[ Scenario.INTERNET ]} (self s)))
                (heap s) (rand s)).
Proof. reflexivity. Qed.

(** What no call of [step_action] touches, and the little it may touch. *)
Lemma step_action_frame a s r s' :
  step_action a s = Return (r, s') →
  obs r = current_state (self s)
  ∧ current_state (self s') = current_state (self s)
  ∧ length (heap s') = length (heap s)
  ∧ (compromised_subnets (self s') = compromised_subnets (self s)
     ∨ compromised_subnets (self s')
       = {[ fst (Action.target a) ]} ∪ compromised_subnets (self s)).
Proof.
  intros Hstep.
  destruct (rejected_dec a s) as [Hrej | Hacc].
  - destruct (action_traffic_permitted_spec a s) as (b & _ & Hiff).
    destruct b.
    + assert (Hgates : ¬ rejected_early s a).
      { intros Hearly. apply Hiff in Hearly. done. }
      destruct Hrej as [Hearly | Hdraw]; [done |].
      rewrite (step_action_rejected_draw _ _ Hgates Hdraw) in Hstep.
      injection Hstep as <- <-. simpl. auto.
    + assert (Hearly : rejected_early s a) by by apply Hiff.
      rewrite (step_action_rejected_early _ _ Hearly) in Hstep.
      injection Hstep as <- <-. simpl. auto.
  - destruct (Network.perform_action (network (self s)) a)
      as [[[[success value] services] os] net1] eqn:Hperf.
    rewrite (step_action_accepted _ _ _ _ _ _ _ Hacc Hperf) in Hstep.
    injection Hstep as <- <-. simpl.
    destruct (negb (Action.is_scan a) && success)%bool; simpl;
      rewrite ?length_alter; auto.
Qed.

Lemma reaches_frame s0 s :
  reaches s0 s →
  current_state (self s) = current_state (self s0)
  ∧ length (heap s) = length (heap s0).
Proof.
  induction 1 as [| s r s' _ (IHc & IHl) Hreset
                  | s arg r s' _ (IHc & IHl) Hstep].
  - auto.
  - rewrite reset_spec in Hreset. injection Hreset as <- <-. simpl. auto.
  - apply step_inv in Hstep as (a & _ & Hstep).
    apply step_action_frame in Hstep as (_ & Hc & Hl & _).
    rewrite Hc, Hl. auto.
Qed.

Lemma reaches_internet s0 s :
  reaches s0 s →
  Scenario.INTERNET ∈ compromised_subnets (self s0) →
  Scenario.INTERNET ∈ compromised_subnets (self s).
Proof.
  induction 1 as [| s r s' _ IH Hreset | s arg r s' _ IH Hstep]; intros Hin0.
  - done.
  - rewrite reset_spec in Hreset. injection Hreset as <- <-. simpl.
    by apply elem_of_singleton.
  - apply step_inv in Hstep as (a & _ & Hstep).
    apply step_action_frame in Hstep as (_ & _ & _ & [-> | ->]).
    + by apply IH.
    + apply elem_of_union_r. by apply IH.
Qed.

Lemma getitem_out_of_range {A : Type} (l : list A) (i : Z) :
  (i < - Z.of_nat (length l) ∨ Z.of_nat (length l) <= i)%Z →
  getitem l i = Raise IndexError.
Proof.
  intros Hout. unfold getitem.
  destruct (i <? 0)%Z eqn:Hneg.
  - apply Z.ltb_lt in Hneg.
    destruct (0 <=? i + Z.of_nat (length l))%Z eqn:Hlo; [| done].
    apply Z.leb_le in Hlo. lia.
  - apply Z.ltb_ge in Hneg.
    destruct (i <? Z.of_nat (length l))%Z eqn:Hhi.
    + apply Z.ltb_lt in Hhi. lia.
    + by rewrite andb_false_r.
Qed.

Lemma getitem_nonneg {A : Type} (l : list A) (i : Z) (x : A) :
  (0 <= i)%Z → l !! Z.to_nat i = Some x → getitem l i = Return x.
Proof.
  intros Hpos Hx. unfold getitem.
  pose proof (lookup_lt_Some _ _ _ Hx) as Hlt.
  destruct (i <? 0)%Z eqn:Hneg; [apply Z.ltb_lt in Hneg; lia |].
  replace (0 <=? i)%Z with true by (symmetry; apply Z.leb_le; lia).
  replace (i <? Z.of_nat (length l))%Z with true
    by (symmetry; apply Z.ltb_lt; lia).
  simpl. by rewrite Hx.
Qed.

Lemma getitem_negative {A : Type} (l : list A) (i : Z) (x : A) :
  (i < 0)%Z → (- Z.of_nat (length l) <= i)%Z →
  l !! Z.to_nat (i + Z.of_nat (length l)) = Some x → getitem l i = Return x.
Proof.
  intros Hneg Hlo Hx. unfold getitem.
  replace (i <? 0)%Z with true by (symmetry; apply Z.ltb_lt; lia).
  replace (0 <=? i + Z.of_nat (length l))%Z with true
    by (symmetry; apply Z.leb_le; lia).
  replace (i + Z.of_nat (length l) <? Z.of_nat (length l))%Z with true
    by (symmetry; apply Z.ltb_lt; lia).
  simpl. by rewrite Hx.
Qed.

(** ** The claims *)

(** C1. A step whose action is rejected -- unreachable target, or (for an
    exploit) no compromised subnet with firewall permission, or a random
    draw above the success probability -- returns the stored State
    reference, reward [0 - cost] (which is [- cost]), [done = false] and
    info [{success: False, services: {}}].  The environment object and the
    store of State objects are left as they were.  The checks run in this
    order and stop at the first that fails: when a gate fails the random
    stream is untouched, otherwise exactly one draw has been taken. *)
Theorem step_rejected arg a s :
  coerce_action arg s = Return (a, s) →
  rejected s a →
  ∃ s', step arg s =
          Return (mkStepResult (current_state (self s)) (0 - Action.cost a)
                               false (mkInfo false ∅ None), s')
        ∧ (0 - Action.cost a == - Action.cost a)%Q
        ∧ self s' = self s
        ∧ heap s' = heap s
        ∧ (rejected_early s a → s' = s)
        ∧ (¬ rejected_early s a → s' = after_draw s).
Proof.
  intros Hc Hrej. rewrite (step_coerced _ _ _ Hc).
  destruct (action_traffic_permitted_spec a s) as (b & _ & Hiff).
  destruct b.
  - assert (Hgates : ¬ rejected_early s a).
    { intros Hearly. apply Hiff in Hearly. done. }
    destruct Hrej as [Hearly | Hdraw]; [done |].
    exists (after_draw s). split; [by apply step_action_rejected_draw |].
    repeat split; [ring | done].
  - assert (Hearly : rejected_early s a) by by apply Hiff.
    exists s. split; [by apply step_action_rejected_early |].
    repeat split; [ring | done].
Qed.


(** C3. The [done] flag of a step that is not rejected is true exactly
    when every sensitive host of the network is compromised at the end of
    the step.  The goal check returns without changing anything, and its
    answer is the goal predicate of the network; without sensitive hosts
    it is true, in particular right after [reset]. *)
Theorem goal_detection s :
  (∃ b, _is_goal s = Return (b, s) ∧ (b = true ↔ goal (network (self s))))
  ∧ (Network.get_sensitive_hosts (network (self s)) = [] →
     _is_goal s = Return (true, s))
  ∧ (∀ r s', NASimEnv.reset s = Return (r, s') →
       Network.get_sensitive_hosts (network (self s')) = [] →
       _is_goal s' = Return (true, s'))
  ∧ (∀ arg a r s',
       coerce_action arg s = Return (a, s) → ¬ rejected s a →
       step arg s = Return (r, s') →
       (done r = true ↔ goal (network (self s')))).
Proof.
  split; [| split; [| split]].
  - eexists. split; [reflexivity |]. apply goal_loop_true.
  - intros Hnone. unfold _is_goal. run_method. by rewrite Hnone.
  - intros r s' _ Hnone. unfold _is_goal. run_method. by rewrite Hnone.
  - intros arg a r s' Hc Hacc Hstep.
    rewrite (step_coerced _ _ _ Hc) in Hstep.
    destruct (Network.perform_action (network (self s)) a)
      as [[[[success value] services] os] net1] eqn:Hperf.
    rewrite (step_action_accepted _ _ _ _ _ _ _ Hacc Hperf) in Hstep.
    injection Hstep as <- <-. simpl. apply goal_loop_true.
Qed.

(** The loop of [_update_reachable], under the laws of the network. *)
Lemma update_reachable_loop_spec {laws : Network.Laws Scn Net}
      (subnet : nat) (addrs : list Addr) (net : Net) :
  (∀ x y, Network.subnets_connected
            (update_reachable_loop subnet addrs net) x y
          = Network.subnets_connected net x y)
  ∧ ∀ b, Network.reachable (update_reachable_loop subnet addrs net) b
         = (Network.reachable net b
            || (bool_decide (b ∈ addrs)
                && Network.subnets_connected net subnet (fst b)))%bool.
Proof.
  revert net.
  induction addrs as [|x addrs IH]; intros net; cbn [update_reachable_loop].
  - split; [done |]. intros b. rewrite bool_decide_eq_false_2.
    + by rewrite orb_false_r.
    + apply not_elem_of_nil.
  - assert (Hmem : ∀ b, bool_decide (b ∈ x :: addrs)
                        = (bool_decide (b = x) || bool_decide (b ∈ addrs))%bool).
    { intros b. rewrite <- bool_decide_or.
      apply bool_decide_ext, elem_of_cons. }
    destruct (Network.reachable net x) eqn:Hx.
    { destruct (IH net) as [IHc IHr]. split; [done |].
      intros b. rewrite IHr, Hmem.
      destruct (decide (b = x)) as [-> | Hne].
      - by rewrite Hx.
      - rewrite (bool_decide_eq_false_2 _ Hne). reflexivity. }
    destruct (Network.subnets_connected net subnet (fst x)) eqn:Hconn.
    + destruct (IH (Network.set_reachable net x)) as [IHc IHr]. split.
      * intros i j. rewrite IHc. apply Network.subnets_connected_set_reachable.
      * intros b. rewrite IHr, Hmem.
        rewrite Network.reachable_set_reachable.
        rewrite Network.subnets_connected_set_reachable.
        destruct (decide (x = b)) as [<- | Hne].
        -- rewrite (bool_decide_eq_true_2 (x = x)) by done. simpl.
           by rewrite Hconn, orb_true_r.
        -- rewrite (bool_decide_eq_false_2 (x = b)) by done.
           rewrite (bool_decide_eq_false_2 (b = x)) by congruence. reflexivity.
    + destruct (IH net) as [IHc IHr]. split; [done |].
      intros b. rewrite IHr, Hmem.
      destruct (decide (b = x)) as [-> | Hne].
      * rewrite Hconn. by rewrite !andb_false_r.
      * rewrite (bool_decide_eq_false_2 _ Hne). reflexivity.
Qed.


(** C4. [_update_reachable] for a host compromised in subnet S: an address
    is reachable afterwards exactly when it was reachable before, or it is
    an address of the address space whose subnet is connected to S.  So
    every address of the address space that was not reachable and whose
    subnet is connected to S becomes reachable, and no other address
    changes: an address whose subnet is not connected to S keeps its
    status even when its subnet is connected to one that has just become
    reachable.  Nothing but the network is touched, and the firewall is
    not consulted.  This is what a step does to reachability after a
    successful exploit, starting from the network [perform_action] left. *)
Theorem update_reachable_one_hop {laws : Network.Laws Scn Net}
        (compromised_host : Addr) s :
  (∃ s', _update_reachable compromised_host s = Return (tt, s')
    ∧ self s' = with_network (network (self s')) (self s)
    ∧ heap s' = heap s ∧ rand s' = rand s
    ∧ (∀ b, Network.reachable (network (self s')) b
            = (Network.reachable (network (self s)) b
               || (bool_decide (b ∈ address_space (self s))
                   && Network.subnets_connected (network (self s))
                        (fst compromised_host) (fst b)))%bool)
    ∧ (∀ b, b ∈ address_space (self s) →
            Network.reachable (network (self s)) b = false →
            Network.subnets_connected (network (self s))
              (fst compromised_host) (fst b) = true →
            Network.reachable (network (self s')) b = true)
    ∧ (∀ b, Network.subnets_connected (network (self s))
              (fst compromised_host) (fst b) = false →
            Network.reachable (network (self s')) b
            = Network.reachable (network (self s)) b)
    ∧ (∀ b, b ∉ address_space (self s) →
            Network.reachable (network (self s')) b
            = Network.reachable (network (self s)) b))
  ∧ (∀ arg a value services os net1 r s',
       coerce_action arg s = Return (a, s) → ¬ rejected s a →
       Action.is_scan a = false →
       Network.perform_action (network (self s)) a
         = (true, value, services, os, net1) →
       step arg s = Return (r, s') →
       ∀ b, Network.reachable (network (self s')) b
            = (Network.reachable net1 b
               || (bool_decide (b ∈ address_space (self s))
                   && Network.subnets_connected net1
                        (fst (Action.target a)) (fst b)))%bool).
Proof.
  split.
  - exists (mkSim (with_network
                     (update_reachable_loop (fst compromised_host)
                        (address_space (self s)) (network (self s)))
                     (self s))
                  (heap s) (rand s)).
    split; [reflexivity |]. simpl.
    destruct (update_reachable_loop_spec (fst compromised_host)
                (address_space (self s)) (network (self s))) as [_ Hreach].
    repeat split.
    + apply Hreach.
    + intros b Hin Hb Hconn. rewrite Hreach, Hconn.
      by rewrite bool_decide_eq_true_2, orb_true_r.
    + intros b Hconn. rewrite Hreach, Hconn.
      by rewrite andb_false_r, orb_false_r.
    + intros b Hout. rewrite Hreach.
      by rewrite bool_decide_eq_false_2, orb_false_r.
  - intros arg a value services os net1 r s' Hc Hacc Hscan Hperf Hstep b.
    rewrite (step_coerced _ _ _ Hc) in Hstep.
    rewrite (step_action_accepted _ _ _ _ _ _ _ Hacc Hperf) in Hstep.
    injection Hstep as _ <-. rewrite Hscan. simpl.
    apply update_reachable_loop_spec.
Qed.

(** C5. [reset] sets the compromised-subnet set to exactly [{INTERNET}];
    a step leaves the set as it is or adds the target's subnet to it, and
    removes nothing; hence INTERNET is in the set at all times after a
    reset. *)
Theorem compromised_subnets_keep_internet s :
  (∀ r s', NASimEnv.reset s = Return (r, s') →
     compromised_subnets (self s') = {[ Scenario.INTERNET ]})
  ∧ (∀ arg r s', step arg s = Return (r, s') →
       (compromised_subnets (self s') = compromised_subnets (self s)
        ∨ ∃ a, coerce_action arg s = Return (a, s)
               ∧ compromised_subnets (self s')
                 = {[ fst (Action.target a) ]} ∪ compromised_subnets (self s))
       ∧ compromised_subnets (self s) ⊆ compromised_subnets (self s'))
  ∧ (running s → Scenario.INTERNET ∈ compromised_subnets (self s)).
Proof.
  split; [| split].
  - intros r s' Hreset. rewrite reset_spec in Hreset.
    by injection Hreset as <- <-.
  - intros arg r s' Hstep.
    apply step_inv in Hstep as (a & Hc & Hstep).
    apply step_action_frame in Hstep as (_ & _ & _ & [Heq | Heq]).
    + rewrite Heq. split; [by left | done].
    + rewrite Heq. split; [right; by exists a | apply union_subseteq_r].
  - intros (s0 & r & s1 & Hreset & Hreach).
    apply (reaches_internet _ _ Hreach).
    rewrite reset_spec in Hreset. injection Hreset as <- <-. simpl.
    by apply elem_of_singleton.
Qed.

(** C6. A step that is not rejected returns the stored State reference,
    reward [value - cost], and the success flag, services and os the
    network reported.  Exactly when the action is an exploit and the
    network reported success, the target's subnet is added to the
    compromised-subnet set, the reachability loop is run on the network,
    and the State object is patched for the target; in every other case
    the set and the State object are as before and the network is the one
    [perform_action] left.  What the loop does to reachability, under the
    laws of the network: an address is reachable at the end of the step
    exactly when it was reachable after [perform_action] or it is an
    address of the address space whose subnet is connected to the
    target's. *)
Theorem step_bookkeeping arg a s success value services os net1 :
  coerce_action arg s = Return (a, s) →
  ¬ rejected s a →
  Network.perform_action (network (self s)) a
    = (success, value, services, os, net1) →
  ∃ d s',
    step arg s =
      Return (mkStepResult (current_state (self s)) (value - Action.cost a) d
                           (mkInfo success services (Some os)), s')
    ∧ if (negb (Action.is_scan a) && success)%bool then
        compromised_subnets (self s')
          = {[ fst (Action.target a) ]} ∪ compromised_subnets (self s)
        ∧ network (self s')
          = update_reachable_loop (fst (Action.target a))
                                  (address_space (self s)) net1
        ∧ heap s'
          = alter (State.update (network (self s')) (Action.target a))
                  (current_state (self s)) (heap s)
        ∧ (Network.Laws Scn Net →
           ∀ b, Network.reachable (network (self s')) b
                = (Network.reachable net1 b
                   || (bool_decide (b ∈ address_space (self s))
                       && Network.subnets_connected net1
                            (fst (Action.target a)) (fst b)))%bool)
      else
        compromised_subnets (self s') = compromised_subnets (self s)
        ∧ network (self s') = net1
        ∧ heap s' = heap s.
Proof.
  intros Hc Hacc Hperf. rewrite (step_coerced _ _ _ Hc).
  rewrite (step_action_accepted _ _ _ _ _ _ _ Hacc Hperf).
  eexists _, _. split; [reflexivity |].
  destruct (negb (Action.is_scan a) && success)%bool; simpl; [| auto].
  repeat split. intros laws b. apply update_reachable_loop_spec.
Qed.

(** C7. [step] raises on an argument that is neither an Action nor an
    integer that indexes the action space: an assertion error for a value
    of another type, an index error for an integer outside [-len, len).
    An integer in range is replaced by the Action at that index (counted
    from the end when negative) before anything else happens, so the call
    behaves as the call with that Action. *)
Theorem step_argument_check s :
  step ArgOther s
    = Raise (AssertionError
               "Step action must be an integer or an Action object")
  ∧ (∀ i, (i < - Z.of_nat (length (action_space (self s)))
           ∨ Z.of_nat (length (action_space (self s))) <= i)%Z →
          step (ArgInt i) s = Raise IndexError)
  ∧ (∀ i a, (0 <= i)%Z → action_space (self s) !! Z.to_nat i = Some a →
            step (ArgInt i) s = step (ArgAction a) s)
  ∧ (∀ i a, (i < 0)%Z →
            (- Z.of_nat (length (action_space (self s))) <= i)%Z →
            action_space (self s)
              !! Z.to_nat (i + Z.of_nat (length (action_space (self s))))
              = Some a →
            step (ArgInt i) s = step (ArgAction a) s)
  ∧ (∀ a, step (ArgAction a) s = step_action a s).
Proof.
  split; [reflexivity |]. split; [| split; [| split]].
  - intros i Hout. unfold step, coerce_action. run_method.
    by rewrite (getitem_out_of_range _ _ Hout).
  - intros i a Hpos Ha. unfold step, coerce_action. run_method.
    by rewrite (getitem_nonneg _ _ _ Hpos Ha).
  - intros i a Hneg Hlo Ha. unfold step, coerce_action. run_method.
    by rewrite (getitem_negative _ _ _ Hneg Hlo Ha).
  - reflexivity.
Qed.

(** C8 (amended). Constructing an environment with a mode other than
    ['MDP'] fails in the constructor with the assertion error of the mode
    check, whatever the mode is; the not-implemented error belongs to
    [_generate_initial_state], which raises it for every mode other than
    ['MDP'] and which the constructor does not reach with such a mode. *)
Theorem init_rejects_unsupported_mode
        (scn : Scn) (mode : string) (heap0 : list St) (rand0 : nat → Q) :
  mode ≠ "MDP"%string →
  __init__ scn mode heap0 rand0
    = Raise (AssertionError "NASimEnv mode must be one in: ['MDP']")
  ∧ ∀ net : Net, _generate_initial_state mode net = Raise NotImplementedError.
Proof.
  intros Hmode. split.
  - unfold __init__, env_modes.
    rewrite bool_decide_eq_false_2; [done |].
    by intros ->%list_elem_of_singleton.
  - intros net. unfold _generate_initial_state.
    destruct (String.eqb_spec mode "MDP"); [done |].
    by destruct (String.eqb mode "POMDP").
Qed.

(** C9. [reset] and [step] return the reference held in the field
    [current_state], never change that field, and allocate no State; an
    environment built by the constructor holds the reference to the State
    allocated there, and every later call returns that same reference. *)
Theorem state_reference_is_stable s :
  (∀ r s', NASimEnv.reset s = Return (r, s') →
     r = current_state (self s)
     ∧ current_state (self s') = current_state (self s)
     ∧ heap s' = heap s)
  ∧ (∀ arg r s', step arg s = Return (r, s') →
       obs r = current_state (self s)
       ∧ current_state (self s') = current_state (self s)
       ∧ length (heap s') = length (heap s))
  ∧ (∀ scn mode heap0 rand0 s1,
       __init__ scn mode heap0 rand0 = Return s → reaches s s1 →
       current_state (self s1) = length heap0
       ∧ length (heap s1) = S (length heap0)
       ∧ (∀ r s2, NASimEnv.reset s1 = Return (r, s2) → r = length heap0)
       ∧ (∀ arg r s2, step arg s1 = Return (r, s2) → obs r = length heap0)).
Proof.
  split; [| split].
  - intros r s' Hreset. rewrite reset_spec in Hreset.
    by injection Hreset as <- <-.
  - intros arg r s' Hstep.
    apply step_inv in Hstep as (a & _ & Hstep).
    apply step_action_frame in Hstep as (Ho & Hc & Hl & _). auto.
  - intros scn mode heap0 rand0 s1 Hinit Hreach.
    assert (Hs : current_state (self s) = length heap0
                 ∧ length (heap s) = S (length heap0)).
    { unfold __init__ in Hinit.
      destruct (negb _); [done |].
      destruct (_generate_initial_state mode _) as [st |]; [| done].
      rewrite reset_spec in Hinit. injection Hinit as <-. simpl.
      split; [done |]. rewrite length_app. simpl. lia. }
    destruct Hs as [Hcur Hlen].
    apply reaches_frame in Hreach as [Hc Hl].
    rewrite Hcur in Hc. rewrite Hlen in Hl.
    repeat split; [done | done | |].
    + intros r s2 Hreset. rewrite reset_spec in Hreset.
      by injection Hreset as <- _.
    + intros arg r s2 Hstep.
      apply step_inv in Hstep as (a & _ & Hstep).
      apply step_action_frame in Hstep as (Ho & _). by rewrite Ho.
Qed.

(** C10. [get_best_possible_score] returns the network's total sensitive
    host value minus its minimal steps, and changes nothing. *)
Theorem get_best_possible_score_value s :
  get_best_possible_score s
  = Return ((Network.get_total_sensitive_host_value (network (self s))
             - inject_Z (Network.get_minimal_steps (network (self s))))%Q, s).
Proof. reflexivity. Qed.

End Theory.

(** * Further properties of the environment *)

Section Coverage.
Context {Scn Net St : Type}.
Context `{!Scenario.API Scn, !Network.API Scn Net, !State.API Net St}.
Import NASimEnv.
Implicit Types (s : @Sim Scn Net St) (a : Action.t) (env : @t Scn Net).

(** The three ways a call of [step_action] returns. *)
Lemma step_action_cases a s r s' :
  step_action a s = Return (r, s') →
  (rejected_early s a ∧ r = rejected_result (self s) a ∧ s' = s)
  ∨ (¬ rejected_early s a ∧ (Action.prob a < rand s 0%nat)%Q
     ∧ r = rejected_result (self s) a ∧ s' = after_draw s)
  ∨ (¬ rejected s a
     ∧ ∃ success value services os net1,
         Network.perform_action (network (self s)) a
           = (success, value, services, os, net1)
         ∧ reward r = (value - Action.cost a)%Q
         ∧ info r = mkInfo success services (Some os)
         ∧ rand s' = (fun n => rand s (S n))
         ∧ ∃ net2 subnets2,
             self s' = with_network net2
                         (with_compromised_subnets subnets2 (self s))
             ∧ (heap s' = heap s
                ∨ heap s' = alter (State.update net2 (Action.target a))
                                  (current_state (self s)) (heap s))).
Proof.
  intros Hstep.
  destruct (rejected_dec a s) as [Hrej | Hacc].
  - destruct (action_traffic_permitted_spec a s) as (b & _ & Hiff).
    destruct b.
    + assert (Hgates : ¬ rejected_early s a).
      { intros Hearly. apply Hiff in Hearly. done. }
      destruct Hrej as [Hearly | Hdraw]; [done |].
      rewrite (step_action_rejected_draw _ _ Hgates Hdraw) in Hstep.
      injection Hstep as <- <-. right. left. auto.
    + assert (Hearly : rejected_early s a) by by apply Hiff.
      rewrite (step_action_rejected_early _ _ Hearly) in Hstep.
      injection Hstep as <- <-. left. auto.
  - destruct (Network.perform_action (network (self s)) a)
      as [[[[success value] services] os] net1] eqn:Hperf.
    rewrite (step_action_accepted _ _ _ _ _ _ _ Hacc Hperf) in Hstep.
    injection Hstep as <- <-. right. right. split; [done |].
    exists success, value, services, os, net1.
    repeat split. eexists _, _. split; [reflexivity |].
    destruct (negb (Action.is_scan a) && success)%bool; auto.
Qed.

Lemma reaches_configuration s0 s :
  reaches s0 s → same_configuration (self s) (self s0).
Proof.
  induction 1 as [| s r s' _ IH Hreset | s arg r s' _ IH Hstep].
  - by repeat split.
  - rewrite reset_spec in Hreset. injection Hreset as <- <-. exact IH.
  - apply step_inv in Hstep as (a & _ & Hstep).
    apply step_action_cases in Hstep
      as [(_ & _ & ->) | [(_ & _ & _ & ->) | (_ & Hacc)]]; [done | done |].
    destruct Hacc as (? & ? & ? & ? & ? & _ & _ & _ & _ & ? & ? & Hself & _).
    unfold same_configuration in *. by rewrite Hself.
Qed.


(** X1. Along any sequence of [reset] and [step] calls the scenario, the
    mode, the address space and the action space stay what they were:
    [get_num_actions] keeps returning the same number, and an integer
    argument of [step] keeps denoting the same Action (or keeps being out
    of range). *)
Theorem configuration_is_stable s0 s :
  reaches s0 s →
  same_configuration (self s) (self s0)
  ∧ get_num_actions s = Return (length (action_space (self s0)), s)
  ∧ ∀ i, coerce_action (ArgInt i) s
         = match coerce_action (ArgInt i) s0 with
           | Return (a, _) => Return (a, s)
           | Raise e => Raise e
           end.
Proof.
  intros Hreach.
  pose proof (reaches_configuration _ _ Hreach) as Hcfg.
  split; [exact Hcfg |].
  destruct Hcfg as (_ & _ & _ & Hact & _).
  split.
  - unfold get_num_actions. cbv [mbind mret M_bind M_ret get_self].
    by rewrite Hact.
  - intros i. unfold coerce_action. cbv [mbind mret M_bind M_ret get_self raise].
    rewrite Hact. by destruct (getitem _ i).
Qed.

Lemma step_action_heap a s r s' l :
  step_action a s = Return (r, s') →
  l ≠ current_state (self s) → heap s' !! l = heap s !! l.
Proof.
  intros Hstep Hl.
  apply step_action_cases in Hstep
    as [(_ & _ & ->) | [(_ & _ & _ & ->) | (_ & Hacc)]]; [done | done |].
  destruct Hacc as (? & ? & ? & ? & ? & _ & _ & _ & _ & ? & ? & _ & [-> | ->]).
  - done.
  - by apply list_lookup_alter_ne.
Qed.

(** X2. [step] and [reset] write to no State object but the one the
    environment holds: whatever else is in the store -- a copy the caller
    took -- is the same after any sequence of calls. *)
Theorem other_states_untouched s0 s l :
  reaches s0 s →
  l ≠ current_state (self s0) →
  heap s !! l = heap s0 !! l.
Proof.
  intros Hreach Hl.
  induction Hreach as [| s r s' Hreach IH Hreset | s arg r s' Hreach IH Hstep].
  - done.
  - rewrite reset_spec in Hreset. injection Hreset as <- <-. exact IH.
  - apply step_inv in Hstep as (a & _ & Hstep).
    rewrite <- IH. apply (step_action_heap _ _ _ _ _ Hstep).
    destruct (reaches_configuration _ _ Hreach) as (_ & _ & _ & _ & ->).
    exact Hl.
Qed.

(** X3. A call of [step] draws from the random stream exactly once when
    the action passes both gates (whatever the draw and the outcome are),
    and not at all when a gate turns it away; [reset] never draws. *)
Theorem step_draws_once_past_the_gates arg s r s' :
  step arg s = Return (r, s') →
  (∃ a, coerce_action arg s = Return (a, s)
        ∧ ((rejected_early s a ∧ rand s' = rand s)
           ∨ (¬ rejected_early s a ∧ rand s' = (fun n => rand s (S n)))))
  ∧ ∀ r0 s0', NASimEnv.reset s' = Return (r0, s0') → rand s0' = rand s'.
Proof.
  intros Hstep. split.
  - apply step_inv in Hstep as (a & Hc & Hstep). exists a. split; [done |].
    apply step_action_cases in Hstep
      as [(Hearly & _ & ->) | [(Hg & _ & _ & ->) | (Hacc & Hrest)]].
    + by left.
    + by right.
    + right. split.
      * intros Hearly. apply Hacc. by left.
      * by destruct Hrest as (? & ? & ? & ? & ? & _ & _ & _ & -> & _).
  - intros r0 s0' Hreset. rewrite reset_spec in Hreset.
    by injection Hreset as <- <-.
Qed.

(** A pass of the reachability loop over addresses that are all reachable
    already or not connected to the subnet changes nothing. *)
Lemma update_reachable_loop_noop (subnet : nat) (addrs : list Addr) (net : Net) :
  (∀ b, b ∈ addrs →
        Network.reachable net b = true
        ∨ Network.subnets_connected net subnet (fst b) = false) →
  update_reachable_loop subnet addrs net = net.
Proof.
  induction addrs as [|x addrs IH]; intros Hall; cbn [update_reachable_loop].
  - done.
  - assert (Hrest : ∀ b, b ∈ addrs →
                         Network.reachable net b = true
                         ∨ Network.subnets_connected net subnet (fst b) = false).
    { intros b Hb. apply Hall. by right. }
    destruct (Hall x) as [-> | Hx]; [left | by apply IH |].
    destruct (Network.reachable net x); [by apply IH |].
    rewrite Hx. by apply IH.
Qed.

Lemma update_reachable_spec (h : Addr) s :
  _update_reachable h s
  = Return (tt, mkSim (with_network
                         (update_reachable_loop (fst h)
                            (address_space (self s)) (network (self s)))
                         (self s))
                      (heap s) (rand s)).
Proof. reflexivity. Qed.

(** X5. Reachability propagation is idempotent: run again for the same
    compromised host it leaves the world exactly as the first run left it.
    And the addresses reachable after propagating for two hosts do not
    depend on the order of the two runs. *)
Theorem update_reachable_idempotent {laws : Network.Laws Scn Net}
        (h1 h2 : Addr) s :
  (∃ s1, _update_reachable h1 s = Return (tt, s1)
         ∧ _update_reachable h1 s1 = Return (tt, s1))
  ∧ ∃ s12 s21,
      (_update_reachable h1;; _update_reachable h2) s = Return (tt, s12)
      ∧ (_update_reachable h2;; _update_reachable h1) s = Return (tt, s21)
      ∧ ∀ b, Network.reachable (network (self s12)) b
             = Network.reachable (network (self s21)) b.
Proof.
  split.
  - eexists. split; [apply update_reachable_spec |].
    rewrite update_reachable_spec. simpl.
    rewrite update_reachable_loop_noop; [done |].
    intros b Hb.
    destruct (update_reachable_loop_spec (fst h1) (address_space (self s))
                (network (self s))) as [Hconn Hreach].
    rewrite Hreach, Hconn, (bool_decide_eq_true_2 _ Hb). simpl.
    destruct (Network.subnets_connected (network (self s)) (fst h1) (fst b));
      [left; apply orb_true_r | by right].
  - unfold mbind, M_bind.
    rewrite (update_reachable_spec h1 s), (update_reachable_spec h2 s).
    cbn beta iota. rewrite !update_reachable_spec. simpl.
    eexists _, _. split; [reflexivity |]. split; [reflexivity |].
    intros b. simpl.
    destruct (update_reachable_loop_spec (fst h1) (address_space (self s))
                (network (self s))) as [Hc1 Hr1].
    destruct (update_reachable_loop_spec (fst h2) (address_space (self s))
                (network (self s))) as [Hc2 Hr2].
    destruct (update_reachable_loop_spec (fst h2) (address_space (self s))
                (update_reachable_loop (fst h1) (address_space (self s))
                   (network (self s)))) as [_ Hr12].
    destruct (update_reachable_loop_spec (fst h1) (address_space (self s))
                (update_reachable_loop (fst h2) (address_space (self s))
                   (network (self s)))) as [_ Hr21].
    rewrite Hr12, Hr21, Hr1, Hr2, Hc1, Hc2.
    destruct (Network.reachable (network (self s)) b),
      (bool_decide (b ∈ address_space (self s))),
      (Network.subnets_connected (network (self s)) (fst h1) (fst b)),
      (Network.subnets_connected (network (self s)) (fst h2) (fst b));
      reflexivity.
Qed.

Lemma traffic_gate_true a s :
  _action_traffic_permitted a s = Return (true, s) ↔ ¬ rejected_early s a.
Proof.
  destruct (action_traffic_permitted_spec a s) as (b & Hb & Hiff).
  rewrite Hb. destruct b; split.
  - intros _ Hearly. apply Hiff in Hearly. done.
  - done.
  - intros [=].
  - intros Hn. destruct Hn. by apply Hiff.
Qed.

(** X6. The firewall gate never closes because the compromised-subnet set
    grew: an action it lets through is let through for every larger set.
    A scan of a reachable target is let through whatever the firewall and
    the set are. *)
Theorem traffic_gate_monotone a s (more : gset nat) :
  _action_traffic_permitted a s = Return (true, s) →
  _action_traffic_permitted a
      (with_subnets (compromised_subnets (self s) ∪ more) s)
    = Return (true, with_subnets (compromised_subnets (self s) ∪ more) s)
  ∧ (Action.is_scan a = true →
     ∀ c, _action_traffic_permitted a (with_subnets c s)
          = Return (true, with_subnets c s)).
Proof.
  intros Hopen. apply traffic_gate_true in Hopen. split.
  - apply traffic_gate_true. intros [Hr | [Hscan Hblocked]].
    + apply Hopen. by left.
    + apply Hopen. right. split; [done |].
      intros src Hsrc. apply Hblocked. simpl. by apply elem_of_union_l.
  - intros Hscan c. apply traffic_gate_true. intros [Hr | [Hns _]].
    + apply Hopen. by left.
    + congruence.
Qed.

(** X7. Right after [reset] the only source subnet the firewall gate can
    use is INTERNET: an action passes the gate exactly when its target is
    reachable and it is a scan or INTERNET may send its service to the
    target's subnet. *)
Theorem gate_after_reset s r s' a :
  NASimEnv.reset s = Return (r, s') →
  _action_traffic_permitted a s'
  = Return ((Network.reachable (network (self s')) (Action.target a)
             && (Action.is_scan a
                 || Network.traffic_permitted (network (self s'))
                      Scenario.INTERNET (fst (Action.target a))
                      (Action.service a)))%bool, s').
Proof.
  intros Hreset. rewrite reset_spec in Hreset. injection Hreset as _ <-.
  unfold _action_traffic_permitted. cbv [mbind mret M_bind M_ret get_self].
  simpl. destruct (Network.reachable _ _); simpl; [| done].
  destruct (Action.is_scan a); simpl; [done |].
  rewrite elements_singleton. simpl.
  by destruct (Network.traffic_permitted _ _ _ _).
Qed.

(** X8. A step never loses more than the action's cost when the value the
    network reports for the action is not negative; and a step that
    reports [done] pays that value minus the cost. *)
Theorem step_reward_bound arg a s r s' success value services os net1 :
  coerce_action arg s = Return (a, s) →
  Network.perform_action (network (self s)) a
    = (success, value, services, os, net1) →
  (0 <= value)%Q →
  step arg s = Return (r, s') →
  (- Action.cost a <= reward r)%Q
  ∧ (done r = true → reward r = (value - Action.cost a)%Q).
Proof.
  intros Hc Hperf Hval Hstep.
  rewrite (step_coerced _ _ _ Hc) in Hstep.
  apply step_action_cases in Hstep
    as [(_ & -> & _) | [(_ & _ & -> & _) | (_ & Hacc)]].
  - simpl. split; [lra | done].
  - simpl. split; [lra | done].
  - destruct Hacc as (? & v & ? & ? & ? & Hperf' & -> & _).
    rewrite Hperf in Hperf'. injection Hperf' as _ <- _ _ _.
    split; [lra | done].
Qed.

(** X9. An action turned away by a gate can be submitted any number of
    times: every call returns the same rejected result and the world stays
    as it was. *)
Theorem rejected_step_repeats n arg a s :
  coerce_action arg s = Return (a, s) →
  rejected_early s a →
  repeat_step n arg s = Return (replicate n (rejected_result (self s) a), s).
Proof.
  intros Hc Hearly. induction n as [|n IH]; simpl.
  - reflexivity.
  - unfold mbind at 1, M_bind at 1.
    rewrite (step_coerced _ _ _ Hc), (step_action_rejected_early _ _ Hearly).
    unfold mbind at 1, M_bind at 1. by rewrite IH.
Qed.

Lemma ensure_renderer_ok (d : Display) :
  display_ok d →
  renderer (ensure_renderer d) = true
  ∧ ∃ rest, calls (ensure_renderer d) = ViewerNew :: rest ∧ ViewerNew ∉ rest.
Proof.
  unfold ensure_renderer. intros [[Hr Hc] | [Hr Hc]]; rewrite Hr; simpl.
  - split; [done |]. exists []. rewrite Hc. split; [done |].
    apply not_elem_of_nil.
  - by split.
Qed.

Lemma call_viewer_ok (c : ViewerCall) (d : Display) :
  c ≠ ViewerNew →
  renderer d = true
  ∧ (∃ rest, calls d = ViewerNew :: rest ∧ ViewerNew ∉ rest) →
  display_ok (call_viewer c d).
Proof.
  intros Hc (Hr & rest & Hcalls & Hrest). right. simpl. split; [done |].
  exists (rest ++ [c]). rewrite Hcalls. split; [done |].
  rewrite elem_of_app, list_elem_of_singleton. intros [? | ?]; congruence.
Qed.

(** X10. The rendering methods create the Viewer on the first call and
    never again, and it is created before anything is drawn.  Each method
    adds to the calls made so far the creation of the Viewer, when there
    was none, and exactly one call more: [render] draws in the mode asked
    for when it is one of [rendering_modes], and for any other mode it
    prints the hint and draws nothing; [render_episode] and
    [render_network_graph] make their one drawing call. *)
Theorem render_uses_one_viewer
        (mode : string) (episode : list (nat * Action.t * Q * bool))
        (width height : Z) (ax : option nat) (show : bool) env
        (d : Display) :
  display_ok d →
  display_ok (render mode env d)
  ∧ display_ok (render_episode episode width height env d)
  ∧ display_ok (render_network_graph ax show env d)
  ∧ (mode ∈ rendering_modes → mode = "ASCI"%string ∨ mode = "readable"%string)
  ∧ (mode = "ASCI"%string →
     calls (render mode env d)
     = calls d ++ (if renderer d then [] else [ViewerNew])
       ++ [RenderAsci (current_state env)])
  ∧ (mode = "readable"%string →
     calls (render mode env d)
     = calls d ++ (if renderer d then [] else [ViewerNew])
       ++ [RenderReadable (current_state env)])
  ∧ (mode ∉ rendering_modes →
     calls (render mode env d)
     = calls d ++ (if renderer d then [] else [ViewerNew])
       ++ [PrintLine
             "Please choose correct render mode: ['readable', 'ASCI']"])
  ∧ calls (render_episode episode width height env d)
    = calls d ++ (if renderer d then [] else [ViewerNew])
      ++ [RenderEpisode episode]
  ∧ calls (render_network_graph ax show env d)
    = calls d ++ (if renderer d then [] else [ViewerNew])
      ++ [RenderGraph (current_state env) ax show].
Proof.
  intros Hok. pose proof (ensure_renderer_ok d Hok) as Hen.
  assert (Hlog : ∀ c, calls (call_viewer c (ensure_renderer d))
                      = calls d ++ (if renderer d then [] else [ViewerNew])
                        ++ [c]).
  { intros c. unfold call_viewer, ensure_renderer.
    destruct (renderer d); simpl; [done |]. by rewrite <- app_assoc. }
  split; [| split; [| split; [| split; [| split; [| split; [| split;
    [| split]]]]]]].
  - unfold render.
    destruct (String.eqb mode "ASCI"); [by apply call_viewer_ok |].
    destruct (String.eqb mode "readable"); by apply call_viewer_ok.
  - by apply call_viewer_ok.
  - by apply call_viewer_ok.
  - intros Hin.
    apply elem_of_cons in Hin as [-> | Hin]; [by right |].
    apply list_elem_of_singleton in Hin. by left.
  - intros ->. apply Hlog.
  - intros ->. apply Hlog.
  - intros Hout. unfold render.
    destruct (String.eqb_spec mode "ASCI") as [-> | _].
    { destruct Hout. right. left. }
    destruct (String.eqb_spec mode "readable") as [-> | _].
    { destruct Hout. left. }
    apply Hlog.
  - apply Hlog.
  - apply Hlog.
Qed.

Lemma split_at_underscore (x x' y y' : string) :
  has_underscore x = false → has_underscore x' = false →
  x +:+ String "_" y = x' +:+ String "_" y' → x = x' ∧ y = y'.
Proof.
  revert x'. induction x as [|c x IH]; intros [|c' x'] Hx Hx' Heq; simpl in *.
  - by injection Heq.
  - injection Heq as <- _. by rewrite Ascii.eqb_refl in Hx'.
  - injection Heq as -> _. by rewrite Ascii.eqb_refl in Hx.
  - injection Heq as -> Heq.
    destruct (Ascii.eqb c' "_"); [done |].
    destruct (IH x' Hx Hx' Heq) as [-> ->]. done.
Qed.

Lemma app_assoc_string (x y z : string) : (x +:+ y) +:+ z = x +:+ (y +:+ z).
Proof.
  induction x as [|c x IH]; [done |].
  change (String c ((x +:+ y) +:+ z) = String c (x +:+ (y +:+ z))).
  by rewrite IH.
Qed.

(** X11. [outfile_name] is the printed subnet list, an underscore, the
    printed number of services and a final underscore; when neither
    printed part contains an underscore (a list of integers and an integer
    never do), two environments have the same file name exactly when they
    have the same printed subnets and the same printed number of
    services. *)
Theorem outfile_name_injective `{!Describe.API Scn Net} env1 env2 :
  has_underscore (Describe.str_subnets (network env1)) = false →
  has_underscore (Describe.str_subnets (network env2)) = false →
  has_underscore (Describe.str_num_services (scenario env1)) = false →
  has_underscore (Describe.str_num_services (scenario env2)) = false →
  outfile_name env1
  = Describe.str_subnets (network env1) +:+ "_"
    +:+ Describe.str_num_services (scenario env1) +:+ "_"
  ∧ (outfile_name env1 = outfile_name env2 ↔
     Describe.str_subnets (network env1) = Describe.str_subnets (network env2)
     ∧ Describe.str_num_services (scenario env1)
       = Describe.str_num_services (scenario env2)).
Proof.
  intros Hs1 Hs2 Hn1 Hn2. unfold outfile_name. simpl.
  rewrite !app_assoc_string. simpl. split; [reflexivity |]. split.
  - intros Heq.
    destruct (split_at_underscore _ _ _ _ Hs1 Hs2 Heq) as [Hsub Hrest].
    split; [done |].
    by destruct (split_at_underscore _ _ _ _ Hn1 Hn2 Hrest).
  - by intros [-> ->].
Qed.

(** X13. [done] is reported exactly by the steps that are not rejected
    and end with every sensitive host compromised: a rejected step returns
    [done = False] even when the goal already holds. *)
Theorem done_characterised arg s r s' :
  step arg s = Return (r, s') →
  (done r = true ↔
   ∃ a, coerce_action arg s = Return (a, s) ∧ ¬ rejected s a
        ∧ goal (network (self s'))).
Proof.
  intros Hstep. apply step_inv in Hstep as (a & Hc & Hstep).
  destruct (rejected_dec a s) as [Hrej | Hacc].
  - assert (Hr : done r = false).
    { apply step_action_cases in Hstep
        as [(_ & -> & _) | [(_ & _ & -> & _) | (Hacc & _)]]; done. }
    rewrite Hr. split; [done |].
    intros (a' & Hc' & Hacc' & _). rewrite Hc in Hc'.
    injection Hc' as <-. done.
  - destruct (Network.perform_action (network (self s)) a)
      as [[[[success value] services] os] net1] eqn:Hperf.
    rewrite (step_action_accepted _ _ _ _ _ _ _ Hacc Hperf) in Hstep.
    injection Hstep as <- <-. simpl. rewrite goal_loop_true. split.
    + intros Hgoal. by exists a.
    + by intros (_ & _ & _ & Hgoal).
Qed.

End Coverage.

(** * The concrete network: laws, examples *)

Import SimpleNet NASimEnv.

Lemma simple_net_laws : Network.Laws Scn Net.
Proof.
  split.
  - intros n x y. simpl. unfold net_reachable, net_set_reachable. simpl.
    destruct (fst y =? INTERNET)%nat; simpl.
    { by rewrite orb_true_r. }
    destruct (decide (x = y)) as [-> | Hne].
    + rewrite (bool_decide_eq_true_2 (y = y)) by done.
      rewrite bool_decide_eq_true_2; [done | set_solver].
    + rewrite (bool_decide_eq_false_2 (x = y)) by done. simpl.
      apply bool_decide_ext.
      rewrite elem_of_union, elem_of_singleton.
      split; [intros [-> | Hin]; done | by right].
  - reflexivity.
Qed.

Lemma init_chain : __init__ chain "MDP" [] half = Return chain_sim.
Proof. vm_compute. reflexivity. Qed.

Lemma init_plain : __init__ plain "MDP" [] half = Return plain_sim.
Proof. vm_compute. reflexivity. Qed.

Lemma reset_chain : NASimEnv.reset chain_sim = Return (0, chain_sim).
Proof. vm_compute. reflexivity. Qed.

Lemma chain_running : running chain_sim.
Proof.
  exists chain_sim, 0, chain_sim. split; [apply reset_chain | constructor].
Qed.

(** In the fresh chain the exploit of (1,0) passes the gates and the draw. *)
Lemma chain_exploit_accepted : ¬ rejected chain_sim (exploit (1, 0)%nat 1).
Proof.
  intros [[Hr | [_ Hblocked]] | Hdraw].
  - vm_compute in Hr. discriminate.
  - specialize (Hblocked INTERNET). 
    assert (Hin : INTERNET ∈ compromised_subnets (self chain_sim)).
    { by apply elem_of_singleton. }
    apply Hblocked in Hin. vm_compute in Hin. discriminate.
  - vm_compute in Hdraw. discriminate.
Qed.

(** ** The claims on the concrete network *)

(** C1, witnessed twice on the chain: the exploit of the unreachable host
    (2,0) is turned away at the first gate and leaves the world as it was;
    the exploit of (1,0) with success probability 1/4 passes the gates and
    loses the draw 1/2, which is consumed. *)
Lemma step_rejected_witness :
  step (ArgInt 3) chain_sim
    = Return (mkStepResult 0 (0 - 1) false (mkInfo false ∅ None), chain_sim)
  ∧ step (ArgInt 6) chain_sim
    = Return (mkStepResult 0 (0 - 1) false (mkInfo false ∅ None),
              after_draw chain_sim).
Proof.
  split.
  - destruct (step_rejected (ArgInt 3) (exploit (2, 0)%nat 1) chain_sim)
      as (s' & Hstep & _ & _ & _ & Hearly & _).
    + reflexivity.
    + left. left. reflexivity.
    + rewrite Hstep. rewrite Hearly; [reflexivity |]. left. reflexivity.
  - destruct (step_rejected (ArgInt 6) (exploit (1, 0)%nat (1 # 4)) chain_sim)
      as (s' & Hstep & _ & _ & _ & _ & Hdraw).
    + reflexivity.
    + right. reflexivity.
    + rewrite Hstep. rewrite Hdraw; [reflexivity |].
      intros [Hr | [_ Hblocked]].
      * vm_compute in Hr. discriminate.
      * assert (Hin : INTERNET ∈ compromised_subnets (self chain_sim))
          by by apply elem_of_singleton.
        apply Hblocked in Hin. vm_compute in Hin. discriminate.
Defined.

(** C2, at a failing input.  On the chain, after the exploit of (1,0) has
    succeeded, [reset] returns the stored State, whose row for (1,0) still
    says compromised, although the network it has just reset holds no
    compromised host and the initial State generated from that network
    says so. *)
Theorem reset_returns_stale_state :
  ∃ r1 s1 r2 s2 st,
    step (ArgInt 1) chain_sim = Return (r1, s1)
    ∧ info_success (info r1) = true
    ∧ NASimEnv.reset s1 = Return (r2, s2)
    ∧ heap s2 !! r2 = Some st
    ∧ st_row st (1, 0)%nat = Some (mkRow true true {[ 0%nat := true ]})
    ∧ Network.compromised (network (self s2)) (1, 0)%nat = false
    ∧ st_row (State.generate_initial_mdp_state (network (self s2)))
             (1, 0)%nat
      = Some (mkRow false true ∅).
Proof.
  eexists _, _, _, _, _.
  split; [vm_compute; reflexivity |].
  split; [reflexivity |].
  split; [vm_compute; reflexivity |].
  split; [vm_compute; reflexivity |].
  split; [vm_compute; reflexivity |].
  split; vm_compute; reflexivity.
Qed.

(** C3 on the concrete network: without sensitive hosts the goal holds
    right after the reset that ends the constructor; on the chain the
    exploit of (1,0) leaves two sensitive hosts uncompromised and the step
    reports [done = false]. *)
Lemma goal_detection_witness :
  _is_goal plain_sim = Return (true, plain_sim)
  ∧ ∀ r s', step (ArgInt 1) chain_sim = Return (r, s') →
            (done r = true ↔ goal (network (self s'))).
Proof.
  split.
  - apply (proj1 (proj2 (goal_detection plain_sim))). reflexivity.
  - intros r s'.
    apply (proj2 (proj2 (proj2 (goal_detection chain_sim)))
             (ArgInt 1) (exploit (1, 0)%nat 1)).
    + reflexivity.
    + apply chain_exploit_accepted.
Defined.

(** C4 on the chain: after a host of subnet 1 is compromised the host of
    the adjacent subnet 2 is reachable and the host of subnet 3, adjacent
    to subnet 2 only, is not. *)
Lemma update_reachable_one_hop_witness :
  ∃ s', _update_reachable (1, 0)%nat chain_sim = Return (tt, s')
    ∧ Network.reachable (network (self s')) (2, 0)%nat = true
    ∧ Network.reachable (network (self s')) (3, 0)%nat = false.
Proof.
  destruct (proj1 (update_reachable_one_hop (laws := simple_net_laws)
                     (1, 0)%nat chain_sim))
    as (s' & Hrun & _ & _ & _ & _ & Hnew & Hfar & _).
  exists s'. split; [exact Hrun |]. split.
  - apply Hnew.
    + apply list_elem_of_In. simpl. tauto.
    + reflexivity.
    + reflexivity.
  - rewrite Hfar; reflexivity.
Defined.

(** C5 on the chain. *)
Lemma compromised_subnets_keep_internet_witness :
  INTERNET ∈ compromised_subnets (self chain_sim).
Proof.
  refine (proj2 (proj2 (compromised_subnets_keep_internet chain_sim)) _).
  exact chain_running.
Defined.

(** C6 on the chain: the successful exploit of (1,0) adds subnet 1 and
    makes the host of the adjacent subnet 2 reachable, and not the host of
    subnet 3. *)
Lemma step_bookkeeping_witness :
  ∃ d s',
    step (ArgInt 1) chain_sim
      = Return (mkStepResult 0 (0 - 1) d
                  (mkInfo true {[ 0%nat := true ]} (Some (Some "linux"%string))),
                s')
    ∧ compromised_subnets (self s') = {[ 1%nat ]} ∪ {[ INTERNET ]}
    ∧ Network.reachable (network (self chain_sim)) (2, 0)%nat = false
    ∧ Network.reachable (network (self s')) (2, 0)%nat = true
    ∧ Network.reachable (network (self s')) (3, 0)%nat = false.
Proof.
  destruct (step_bookkeeping (ArgInt 1) (exploit (1, 0)%nat 1) chain_sim
              true 0 {[ 0%nat := true ]} (Some "linux"%string)
              (snd (Network.perform_action (network (self chain_sim))
                      (exploit (1, 0)%nat 1))))
    as (d & s' & Hstep & Hsub & _ & _ & Hreach).
  - reflexivity.
  - apply chain_exploit_accepted.
  - vm_compute. reflexivity.
  - exists d, s'. split; [exact Hstep |]. split; [exact Hsub |].
    split; [reflexivity |].
    rewrite !(Hreach simple_net_laws). split; vm_compute; reflexivity.
Defined.

(** C7 on the chain, whose action space has seven actions. *)
Lemma step_argument_check_witness :
  step (ArgInt 7) chain_sim = Raise IndexError
  ∧ step (ArgInt (-1)) chain_sim
    = step (ArgAction (exploit (1, 0)%nat (1 # 4))) chain_sim.
Proof.
  split.
  - apply (proj1 (proj2 (step_argument_check chain_sim))).
    right. vm_compute. discriminate.
  - apply (proj1 (proj2 (proj2 (proj2 (step_argument_check chain_sim))))).
    + reflexivity.
    + vm_compute. discriminate.
    + reflexivity.
Defined.

(** C8, the claim as stated fails: the partially-observable mode is turned
    away by the same assertion as any other unsupported mode, and not by a
    not-implemented error. *)
Lemma init_pomdp_not_distinct :
  @__init__ Scn Net St _ _ _ chain "POMDP" [] half ≠ Raise NotImplementedError
  ∧ @__init__ Scn Net St _ _ _ chain "POMDP" [] half
    = @__init__ Scn Net St _ _ _ chain "no such mode" [] half.
Proof. split; [discriminate | reflexivity]. Qed.

(** C8 (amended) on the chain. *)
Lemma init_rejects_unsupported_mode_witness :
  @__init__ Scn Net St _ _ _ chain "POMDP" [] half
  = Raise (AssertionError "NASimEnv mode must be one in: ['MDP']").
Proof.
  apply (init_rejects_unsupported_mode chain "POMDP" [] half). discriminate.
Defined.

(** C9 on the chain: the State allocated by the constructor sits at
    reference 0, and a step after a reset returns that reference. *)
Lemma state_reference_is_stable_witness :
  current_state (self chain_sim) = 0%nat
  ∧ ∀ arg r s2, step arg chain_sim = Return (r, s2) → obs r = 0%nat.
Proof.
  destruct (proj2 (proj2 (state_reference_is_stable chain_sim))
              chain "MDP"%string [] half chain_sim)
    as (Hcur & _ & _ & Hstep).
  - vm_compute. reflexivity.
  - constructor.
  - split; [exact Hcur | exact Hstep].
Defined.

(** ** The further properties on the concrete network *)

Lemma chain_step1_returns :
  ∃ r s1, step (ArgInt 1) chain_sim = Return (r, s1).
Proof. vm_compute. eexists _, _. reflexivity. Qed.

(** X1 on the chain, after the exploit of (1,0). *)
Lemma configuration_is_stable_witness :
  ∃ r s1, step (ArgInt 1) chain_sim = Return (r, s1)
          ∧ get_num_actions s1 = Return (7%nat, s1)
          ∧ coerce_action (ArgInt 3) s1 = Return (exploit (2, 0)%nat 1, s1).
Proof.
  destruct chain_step1_returns as (r & s1 & Hstep).
  destruct (configuration_is_stable chain_sim s1) as (_ & Hnum & Hidx).
  { eapply reaches_step; [constructor | exact Hstep]. }
  exists r, s1. split; [exact Hstep |]. split; [exact Hnum |].
  rewrite Hidx. reflexivity.
Defined.

(** X2 on the chain with a copy of the initial State at reference 1: the
    exploit of (1,0) patches the State at reference 0 and not the copy. *)
Lemma other_states_untouched_witness :
  ∃ r s1, step (ArgInt 1) chain_sim_copy = Return (r, s1)
          ∧ heap s1 !! 1%nat
            = Some (st_generate_initial_mdp_state (net_new chain))
          ∧ heap s1 !! 0%nat ≠ heap s1 !! 1%nat.
Proof.
  assert (Hret : ∃ r s1, step (ArgInt 1) chain_sim_copy = Return (r, s1)
                         ∧ heap s1 !! 0%nat
                           ≠ Some (st_generate_initial_mdp_state
                                     (net_new chain))).
  { vm_compute. eexists _, _. split; [reflexivity | discriminate]. }
  destruct Hret as (r & s1 & Hstep & Hne).
  assert (Hcopy : heap s1 !! 1%nat = heap chain_sim_copy !! 1%nat).
  { apply (other_states_untouched chain_sim_copy s1 1%nat).
    - eapply reaches_step; [constructor | exact Hstep].
    - discriminate. }
  exists r, s1. split; [exact Hstep |].
  rewrite Hcopy. split; [reflexivity | exact Hne].
Defined.

(** X3 on the chain: the exploit of (1,0) passes the gates and takes one
    draw. *)
Lemma step_draws_once_past_the_gates_witness :
  ∃ r s1, step (ArgInt 1) chain_sim = Return (r, s1)
          ∧ rand s1 = (fun n => half (S n)).
Proof.
  destruct chain_step1_returns as (r & s1 & Hstep).
  destruct (step_draws_once_past_the_gates (ArgInt 1) chain_sim r s1 Hstep)
    as [(a & Hc & Hdraw) _].
  exists r, s1. split; [exact Hstep |].
  assert (Ha : a = exploit (1, 0)%nat 1) by (injection Hc as <-; reflexivity).
  subst a. destruct Hdraw as [[Hearly _] | [_ Hrand]]; [| exact Hrand].
  destruct chain_exploit_accepted. by left.
Defined.

(** X5 on the chain. *)
Lemma update_reachable_idempotent_witness :
  ∃ s1, _update_reachable (1, 0)%nat chain_sim = Return (tt, s1)
        ∧ _update_reachable (1, 0)%nat s1 = Return (tt, s1).
Proof.
  exact (proj1 (update_reachable_idempotent (laws := simple_net_laws)
                  (1, 0)%nat (2, 0)%nat chain_sim)).
Defined.

(** X6 on the chain: the exploit of (1,0), let through from INTERNET, is
    let through when subnet 1 joins the set. *)
Lemma traffic_gate_monotone_witness :
  _action_traffic_permitted (exploit (1, 0)%nat 1)
      (with_subnets ({[ INTERNET ]} ∪ {[ 1%nat ]}) chain_sim)
  = Return (true, with_subnets ({[ INTERNET ]} ∪ {[ 1%nat ]}) chain_sim).
Proof.
  refine (proj1 (traffic_gate_monotone (exploit (1, 0)%nat 1) chain_sim
                   {[ 1%nat ]} _)).
  reflexivity.
Defined.

(** X7 on the chain: after a reset the exploit of (2,0) does not pass. *)
Lemma gate_after_reset_witness :
  _action_traffic_permitted (exploit (2, 0)%nat 1) chain_sim
  = Return (false, chain_sim).
Proof.
  rewrite (gate_after_reset chain_sim 0%nat chain_sim (exploit (2, 0)%nat 1)
             reset_chain).
  reflexivity.
Defined.

(** X8 on the chain: the exploit of (1,0), a host of value 0 and cost 1. *)
Lemma step_reward_bound_witness :
  ∃ r s1, step (ArgInt 1) chain_sim = Return (r, s1)
          ∧ (- (1) <= reward r)%Q.
Proof.
  destruct chain_step1_returns as (r & s1 & Hstep).
  exists r, s1. split; [exact Hstep |].
  refine (proj1 (step_reward_bound (ArgInt 1) (exploit (1, 0)%nat 1) chain_sim
                   r s1 true 0 {[ 0%nat := true ]} (Some "linux"%string)
                   (snd (Network.perform_action (network (self chain_sim))
                           (exploit (1, 0)%nat 1)))
                   _ _ _ Hstep)).
  - reflexivity.
  - vm_compute. reflexivity.
  - discriminate.
Defined.

(** X9 on the chain: three exploits of the unreachable host (2,0). *)
Lemma rejected_step_repeats_witness :
  repeat_step 3 (ArgInt 3) chain_sim
  = Return (replicate 3 (mkStepResult 0 (0 - 1) false (mkInfo false ∅ None)),
            chain_sim).
Proof.
  refine (rejected_step_repeats 3 (ArgInt 3) (exploit (2, 0)%nat 1) chain_sim
            _ _).
  - reflexivity.
  - left. reflexivity.
Defined.

(** X10 from an environment that has not rendered yet: an unknown mode
    creates the Viewer and prints the hint, and a later drawing call uses
    that Viewer. *)
Lemma render_uses_one_viewer_witness :
  calls (render "asci" chain_env (mkDisplay false []))
  = [ViewerNew;
     PrintLine "Please choose correct render mode: ['readable', 'ASCI']"]
  ∧ calls (render "readable" chain_env
             (render "asci" chain_env (mkDisplay false [])))
    = [ViewerNew;
       PrintLine "Please choose correct render mode: ['readable', 'ASCI']";
       RenderReadable 0].
Proof.
  destruct (render_uses_one_viewer "asci" [] 7 7 None false chain_env
              (mkDisplay false []))
    as (Hok & _ & _ & _ & _ & _ & Hhint & _).
  { left. by split. }
  assert (Hlog : calls (render "asci" chain_env (mkDisplay false []))
                 = [ViewerNew;
                    PrintLine
                      "Please choose correct render mode: ['readable', 'ASCI']"]).
  { apply Hhint. intros Hin.
    apply elem_of_cons in Hin as [Hin | Hin]; [discriminate |].
    apply list_elem_of_singleton in Hin. discriminate. }
  split; [exact Hlog |].
  destruct (render_uses_one_viewer "readable" [] 7 7 None false chain_env
              (render "asci" chain_env (mkDisplay false [])) Hok)
    as (_ & _ & _ & _ & _ & Hread & _).
  rewrite (Hread eq_refl), Hlog. reflexivity.
Defined.

(** X11: the chain and another scenario of the same shape share the file
    name; the chain and the one-subnet scenario do not. *)
Lemma outfile_name_injective_witness :
  outfile_name chain_env = "[1, 1, 1]_1_"%string
  ∧ network chain_env ≠ network chain_alt_env
  ∧ outfile_name chain_env = outfile_name chain_alt_env
  ∧ outfile_name chain_env ≠ outfile_name plain_env.
Proof.
  destruct (outfile_name_injective chain_env chain_alt_env)
    as [Hname Hsame]; [reflexivity .. |].
  destruct (outfile_name_injective chain_env plain_env)
    as [_ Hother]; [reflexivity .. |].
  split; [rewrite Hname; reflexivity |].
  split; [discriminate |].
  split.
  - apply Hsame. split; reflexivity.
  - intros Heq. apply Hother in Heq as [Hsub _]. discriminate Hsub.
Defined.

(** X13 on the network without sensitive hosts: the exploit of (1,0)
    passes and reports [done]. *)
Lemma done_characterised_witness :
  ∃ r s1, step (ArgInt 1) plain_sim = Return (r, s1) ∧ done r = true.
Proof.
  assert (Hret : ∃ r s1, step (ArgInt 1) plain_sim = Return (r, s1)).
  { vm_compute. eexists _, _. reflexivity. }
  destruct Hret as (r & s1 & Hstep).
  exists r, s1. split; [exact Hstep |].
  apply (proj2 (done_characterised (ArgInt 1) plain_sim r s1 Hstep)).
  exists (exploit (1, 0)%nat 1). split; [reflexivity |]. split.
  - intros [[Hr | [_ Hblocked]] | Hdraw].
    + vm_compute in Hr. discriminate.
    + assert (Hin : INTERNET ∈ compromised_subnets (self plain_sim))
        by by apply elem_of_singleton.
      apply Hblocked in Hin. vm_compute in Hin. discriminate.
    + vm_compute in Hdraw. discriminate.
  - intros m Hm. exfalso.
    assert (Hsens : Network.get_sensitive_hosts (network (self s1)) = []).
    { revert Hstep. vm_compute. intros [= _ <-]. reflexivity. }
    rewrite Hsens in Hm. by apply not_elem_of_nil in Hm.
Defined.
